(** * PowerShell AST Inspector: session runner, tree builder, node locator

    A shallow embedding of the parts of the extension that carry an
    algorithm:

    - [AstParse.ps1]: the [AstProperty.TrimString] truncation of node text
      and property values;
    - [PowerShellRunner.ts]: the long-lived interpreter process, its
      sentinel framing of standard output and its queue of pending
      promises;
    - [extension.ts]: [PowerShellAstAnalyzer.analyzeContent],
      [PowerShellAstAnalyzer.buildTreeFromFlatData] and the position scan of
      the [revealNodeForSelection] command.

    Strings of both JavaScript and .NET are sequences of UTF-16 code units;
    they are modelled as lists of code units.  Numbers that the code only
    uses as integers (hash codes, lines, columns, lengths, exit codes) are
    modelled in [Z]. *)

From Stdlib Require Import Ascii String DecimalString.
From Stdlib Require Import List ZArith NArith Bool Arith Lia Permutation Sorted.
Import ListNotations.

Local Open Scope list_scope.

(** ** Strings as lists of UTF-16 code units *)

Definition jsstring : Type := list N.

Module JsString.

Definition t : Type := jsstring.

(** An ASCII literal as a code-unit string. *)
Definition lit (s : string) : t :=
  map N_of_ascii (list_ascii_of_string s).

(** ECMAScript [WhiteSpace] and [LineTerminator] code units, the ones
    [String.prototype.trim] strips. *)
Definition isWhiteSpace (c : N) : bool :=
  ((9 <=? c) && (c <=? 13) || (c =? 32) || (c =? 160) || (c =? 5760)
   || (8192 <=? c) && (c <=? 8202) || (c =? 8232) || (c =? 8233)
   || (c =? 8239) || (c =? 8287) || (c =? 12288) || (c =? 65279))%N.

Fixpoint trimStart (s : t) : t :=
  match s with
  | [] => []
  | c :: s' => if isWhiteSpace c then trimStart s' else s
  end.

Definition trimEnd (s : t) : t := rev (trimStart (rev s)).

(** [s.trim()] *)
Definition trim (s : t) : t := trimEnd (trimStart s).

(** [s.startsWith(p)] *)
Fixpoint startsWith (p s : t) : bool :=
  match p, s with
  | [], _ => true
  | _ :: _, [] => false
  | a :: p', b :: s' => (a =? b)%N && startsWith p' s'
  end.

(** [s.includes(needle)] *)
Fixpoint includes (needle s : t) : bool :=
  startsWith needle s ||
  match s with
  | [] => false
  | _ :: s' => includes needle s'
  end.

(** [s.split(sep)] for a non-empty separator.  The scan goes left to
    right; [skip] counts the code units of a matched separator that are
    still to be passed over, [cur] holds the current part, reversed. *)
Fixpoint split_from (sep : t) (skip : nat) (cur : t) (s : t) : list t :=
  match s with
  | [] => [rev cur]
  | c :: s' =>
      match skip with
      | S k => split_from sep k cur s'
      | O =>
          if startsWith sep s
          then rev cur :: split_from sep (length sep - 1) [] s'
          else split_from sep 0 (c :: cur) s'
      end
  end.

Definition split (sep s : t) : list t := split_from sep 0 [] s.

(** [s.trim()] is the empty string. *)
Definition isBlank (s : t) : bool :=
  match trim s with [] => true | _ :: _ => false end.

(** Falsiness of a string: only the empty string is falsy. *)
Definition truthy (s : t) : bool :=
  match s with [] => false | _ :: _ => true end.

(** A text between double quotes. *)
Definition quoted (s : t) : t := [34%N] ++ s ++ [34%N].

(** Rendering of an integer inside a template literal. *)
Definition ofZ (z : Z) : t := lit (NilZero.string_of_int (Z.to_int z)).

End JsString.

(** ** AstParse.ps1 *)

Module AstParse.

(** The three dots a truncated string ends with. *)
Definition ellipsis : jsstring := JsString.lit "...".

(** [static [string] TrimString([string]$String, [int]$MaxChars)].
    [$String.Length] and [Substring] count UTF-16 code units. *)
Definition TrimString2 (String : jsstring) (MaxChars : Z) : jsstring :=
  match String with
  | [] => []
  | _ :: _ =>
      if (Z.of_nat (length String) <=? MaxChars)%Z
      then String
      else firstn (Z.to_nat MaxChars) String ++ ellipsis
  end.

(** [static [string] TrimString([string]$String)] *)
Definition TrimString (String : jsstring) : jsstring :=
  TrimString2 String 200.

Record AstProperty := mkAstProperty {
  Name : jsstring;
  Value : jsstring;
  TypeName : jsstring
}.

(** The constructor [AstProperty([string]$Name, [string]$Value,
    [string]$TypeName)]. *)
Definition AstProperty_new (Name Value TypeName : jsstring) : AstProperty :=
  mkAstProperty Name (TrimString Value) TypeName.

(** The [text] member of [$nodeData], from [$node.ToString()]. *)
Definition nodeData_text (nodeToString : jsstring) : jsstring :=
  TrimString2 nodeToString 100.

End AstParse.

(** ** PowerShellRunner.ts *)

Module Runner.

(** The sentinel written after every command. *)
Definition END_OF_COMMAND : jsstring := JsString.lit "__END_OF_COMMAND__".

(** The values a promise of [invoke] is rejected with, one constructor
    per place of the source that builds or forwards the error:
    - [ProcessError err]: the [err] of the process's ['error'] event;
    - [ExitedUnexpectedly code]:
      [new Error(`PowerShell process exited unexpectedly with code ${code}`)];
    - [StderrText e]: [new Error(this.currentError)];
    - [WriteFailed]: what the [try] around [stdin.write] caught;
    - [RunnerDisposed]: [new Error('PowerShell runner is disposed')];
    - [SpawnFailed]: [new Error('Failed to start PowerShell process.')],
      or what [cp.spawn] threw. *)
Inductive Reason :=
| ProcessError (message : jsstring)
| ExitedUnexpectedly (code : option Z)
| StderrText (text : jsstring)
| WriteFailed
| RunnerDisposed
| SpawnFailed.

Inductive Settlement :=
| Resolved (value : jsstring)
| Rejected (reason : Reason).

(** What [cp.spawn] does: it returns a child process with a pid, or one
    without a pid, or it throws. *)
Inductive SpawnResult := SpawnPid | SpawnNoPid | SpawnThrows.

(** The fields of the class.  A child process is named by the number of
    the spawn that created it; a pending callback pair
    [{resolve, reject}] is named by the number of its promise. *)
Record PowerShellRunner := mkRunner {
  process : option nat;
  isDisposed : bool;
  pendingCallbacks : list nat;
  currentData : jsstring;
  currentError : jsstring
}.

(** What the runner does to the world around it: the promises it
    settled, in the order it settled them; the child processes it spawned
    and killed; what it wrote to which child's standard input; and the
    number of promises [invoke] has handed out. *)
Record World := mkWorld {
  settled : list (nat * Settlement);
  spawned : nat;
  killed : list nat;
  written : list (nat * jsstring);
  promises : nat
}.

Definition State : Type := PowerShellRunner * World.

Definition set_process (p : option nat) (r : PowerShellRunner) :=
  mkRunner p (isDisposed r) (pendingCallbacks r) (currentData r) (currentError r).
Definition set_isDisposed (b : bool) (r : PowerShellRunner) :=
  mkRunner (process r) b (pendingCallbacks r) (currentData r) (currentError r).
Definition set_pendingCallbacks (q : list nat) (r : PowerShellRunner) :=
  mkRunner (process r) (isDisposed r) q (currentData r) (currentError r).
Definition set_currentData (d : jsstring) (r : PowerShellRunner) :=
  mkRunner (process r) (isDisposed r) (pendingCallbacks r) d (currentError r).
Definition set_currentError (e : jsstring) (r : PowerShellRunner) :=
  mkRunner (process r) (isDisposed r) (pendingCallbacks r) (currentData r) e.

(** [handler.resolve(v)] or [handler.reject(e)] on promise [p]. *)
Definition settle (p : nat) (o : Settlement) (w : World) : World :=
  mkWorld (settled w ++ [(p, o)]) (spawned w) (killed w) (written w) (promises w).

Definition write (child : nat) (text : jsstring) (w : World) : World :=
  mkWorld (settled w) (spawned w) (killed w) (written w ++ [(child, text)]) (promises w).

Definition kill (child : nat) (w : World) : World :=
  mkWorld (settled w) (spawned w) (killed w ++ [child]) (written w) (promises w).

Definition new_promise (w : World) : nat * World :=
  (promises w,
   mkWorld (settled w) (spawned w) (killed w) (written w) (S (promises w))).

Definition new_child (w : World) : nat * World :=
  (spawned w,
   mkWorld (settled w) (S (spawned w)) (killed w) (written w) (promises w)).

(** [private startProcess()].  The result is [inr] when it throws.  The
    field [process] is assigned before the pid is looked at, so a child
    without a pid stays in the field. *)
Definition startProcess (sp : SpawnResult) (st : State) : State + State :=
  let '(r, w) := st in
  match sp with
  | SpawnThrows => inr (r, w)
  | SpawnNoPid =>
      let '(c, w1) := new_child w in
      inr (set_process (Some c) r, w1)
  | SpawnPid =>
      let '(c, w1) := new_child w in
      inl (set_process (Some c) r, w1)
  end.

(** [private resolveCurrentCommand()] *)
Definition resolveCurrentCommand (st : State) : State :=
  let '(r, w) := st in
  match pendingCallbacks r with
  | [] => (r, w)
  | handler :: rest =>
      let r1 := set_pendingCallbacks rest r in
      if JsString.truthy (currentError r)
         && (0 <? length (JsString.trim (currentError r)))
      then
        if negb (JsString.truthy (JsString.trim (currentData r)))
        then (r1, settle handler (Rejected (StderrText (currentError r))) w)
        else (r1, settle handler (Resolved (JsString.trim (currentData r))) w)
      else (r1, settle handler (Resolved (JsString.trim (currentData r))) w)
  end.

(** [private rejectCurrentCommand(error)] *)
Definition rejectCurrentCommand (error : Reason) (st : State) : State :=
  let '(r, w) := st in
  match pendingCallbacks r with
  | [] => (r, w)
  | handler :: rest =>
      (set_pendingCallbacks rest r, settle handler (Rejected error) w)
  end.

(** The listener of [stdout]'s ['data'] event. *)
Definition onStdoutData (chunk : jsstring) (st : State) : State :=
  if JsString.includes END_OF_COMMAND chunk then
    let parts := JsString.split END_OF_COMMAND chunk in
    let '(r, w) := st in
    let st1 := (set_currentData (currentData r ++ nth 0 parts []) r, w) in
    let '(r2, w2) := resolveCurrentCommand st1 in
    if (1 <? length parts)
       && (0 <? length (JsString.trim (nth 1 parts [])))
    then (set_currentData (nth 1 parts []) r2, w2)
    else (r2, w2)
  else
    let '(r, w) := st in
    (set_currentData (currentData r ++ chunk) r, w).

(** The listener of [stderr]'s ['data'] event. *)
Definition onStderrData (chunk : jsstring) (st : State) : State :=
  let '(r, w) := st in
  (set_currentError (currentError r ++ chunk) r, w).

(** The listener of the process's ['error'] event. *)
Definition onError (message : jsstring) (st : State) : State :=
  rejectCurrentCommand (ProcessError message) st.

(** The listener of the process's ['exit'] event. *)
Definition onExit (code : option Z) (st : State) : State :=
  let '(r, w) := st in
  rejectCurrentCommand (ExitedUnexpectedly code) (set_process None r, w).

(** The text [invoke] writes for a command. *)
Definition fullCommand (command : jsstring) : jsstring :=
  command ++ JsString.lit "; Write-Output " ++ JsString.quoted END_OF_COMMAND.

(** [public async invoke(command)].  [sp] is what [cp.spawn] does if the
    call reaches it, [writeOk] whether [stdin.write] returns rather than
    throws.  The result is the promise handed to the caller and the new
    state. *)
Definition invoke (command : jsstring) (sp : SpawnResult) (writeOk : bool)
           (st : State) : nat * State :=
  let '(r, w) := st in
  let '(p, w) := new_promise w in
  let started :=
    if isDisposed r || match process r with None => true | Some _ => false end
    then
      if negb (isDisposed r)
      then startProcess sp (r, w)
      else inr (r, w)
    else inl (r, w) in
  match started with
  | inr (r1, w1) =>
      (p, (r1, settle p (Rejected (if isDisposed r then RunnerDisposed
                                   else SpawnFailed)) w1))
  | inl (r1, w1) =>
      let r2 := set_pendingCallbacks (pendingCallbacks r1 ++ [p]) r1 in
      let r3 := set_currentError [] (set_currentData [] r2) in
      match process r3, writeOk with
      | Some c, true =>
          (p, (r3, write c (fullCommand command ++ [10%N]) w1))
      | _, _ =>
          match pendingCallbacks r3 with
          | [] => (p, (r3, w1))
          | handler :: rest =>
              (p, (set_pendingCallbacks rest r3,
                   settle handler (Rejected WriteFailed) w1))
          end
      end
  end.

(** [public dispose()] *)
Definition dispose (st : State) : State :=
  let '(r, w) := st in
  let r1 := set_isDisposed true r in
  match process r1 with
  | Some c => (set_process None r1, kill c w)
  | None => (r1, w)
  end.

(** The constructor: fields at their initial values, then
    [startProcess()]; a throw of [startProcess] is a throw of [new]. *)
Definition initial : State :=
  (mkRunner None false [] [] [], mkWorld [] 0 [] [] 0).

Definition new (sp : SpawnResult) : State + State :=
  startProcess sp initial.

(** A runner whose constructor found an interpreter to start. *)
Definition started : State :=
  match new SpawnPid with inl st => st | inr st => st end.

(** What happens to a runner, one call or one event at a time. *)
Inductive Event :=
| Invoke (command : jsstring) (sp : SpawnResult) (writeOk : bool)
| StdoutData (chunk : jsstring)
| StderrData (chunk : jsstring)
| ProcError (message : jsstring)
| ProcExit (code : option Z)
| Dispose.

Definition step (st : State) (e : Event) : State :=
  match e with
  | Invoke c sp ok => snd (invoke c sp ok st)
  | StdoutData chunk => onStdoutData chunk st
  | StderrData chunk => onStderrData chunk st
  | ProcError m => onError m st
  | ProcExit code => onExit code st
  | Dispose => dispose st
  end.

Definition run (st : State) (es : list Event) : State :=
  fold_left step es st.

End Runner.

(** ** extension.ts: the data *)

(** [Map<K, V>] of JavaScript with integer keys: the entries in insertion
    order.  [set] on a key that is present replaces the value where it
    stands; on a new key it appends. *)
Module JsMap.

Section WithValue.
Context {V : Type}.

Definition t : Type := list (Z * V).

Fixpoint get (k : Z) (m : t) : option V :=
  match m with
  | [] => None
  | (k', v) :: m' => if (k =? k')%Z then Some v else get k m'
  end.

Fixpoint set (k : Z) (v : V) (m : t) : t :=
  match m with
  | [] => [(k, v)]
  | (k', v') :: m' =>
      if (k =? k')%Z then (k', v) :: m' else (k', v') :: set k v m'
  end.

Definition keys (m : t) : list Z := map fst m.
Definition values (m : t) : list V := map snd m.

End WithValue.

Arguments t V : clear implicits.

End JsMap.

Module FlatAstNode.

Record t := mk {
  id : jsstring;
  hashCode : Z;
  parentHashCode : option Z;          (* [None] is [null] *)
  type : jsstring;
  text : jsstring;
  extentString : jsstring;
  StartLineNumber : Z;
  StartColumnNumber : Z;
  EndLineNumber : Z;
  EndColumnNumber : Z;
  textLength : Z;
  properties : option (list AstParse.AstProperty)   (* [None] is absent *)
}.

End FlatAstNode.

(** A tree node object.  Objects are shared and mutated ([children.push]),
    so [children] holds references: every tree node object the builder
    keeps is the value of one entry of its [nodeMap], and a reference to it
    is the key of that entry. *)
Module PowerShellAstNode.

Record t := mk {
  type : jsstring;
  text : jsstring;
  extentString : jsstring;
  startLine : Z;
  startColumn : Z;
  endLine : Z;
  endColumn : Z;
  textLength : Z;
  children : list Z;
  properties : list AstParse.AstProperty;
  id : jsstring;
  hashCode : Z;
  parentHashCode : option Z
}.

Definition set_children (cs : list Z) (n : t) : t :=
  mk (type n) (text n) (extentString n) (startLine n) (startColumn n)
     (endLine n) (endColumn n) (textLength n) cs (properties n)
     (id n) (hashCode n) (parentHashCode n).

(** [n.children.push(c)] *)
Definition push_child (c : Z) (n : t) : t :=
  set_children (children n ++ [c]) n.

End PowerShellAstNode.

(** The value a reference stands for: a node with its children. *)
#[warnings="-register-all"]
Inductive Tree :=
| TreeNode (node : PowerShellAstNode.t) (children : list Tree).

Definition root_of (t : Tree) : PowerShellAstNode.t :=
match t with TreeNode n _ => n end.

(** ** extension.ts: PowerShellAstAnalyzer.buildTreeFromFlatData *)

Module TreeBuilder.

Definition NodeMap : Type := JsMap.t PowerShellAstNode.t.

(** The object literal of the first pass. *)
Definition treeNode (flatNode : FlatAstNode.t) : PowerShellAstNode.t :=
  PowerShellAstNode.mk
    (FlatAstNode.type flatNode)
    (FlatAstNode.text flatNode)
    (FlatAstNode.extentString flatNode)
    (FlatAstNode.StartLineNumber flatNode)
    (FlatAstNode.StartColumnNumber flatNode)
    (FlatAstNode.EndLineNumber flatNode)
    (FlatAstNode.EndColumnNumber flatNode)
    (FlatAstNode.textLength flatNode)
    []
    (match FlatAstNode.properties flatNode with
     | Some ps => ps
     | None => []
     end)
    (FlatAstNode.id flatNode)
    (FlatAstNode.hashCode flatNode)
    (FlatAstNode.parentHashCode flatNode).

(** First pass: [nodeMap.set(flatNode.hashCode, treeNode)] for every
    flat node. *)
Definition firstPass (flatData : list FlatAstNode.t) : NodeMap :=
  fold_left
    (fun nodeMap flatNode =>
       JsMap.set (FlatAstNode.hashCode flatNode) (treeNode flatNode) nodeMap)
    flatData [].

(** One turn of the second loop, at the entry with key [hashCode]. *)
Definition link (acc : NodeMap * list Z) (hashCode : Z) : NodeMap * list Z :=
  let '(nodeMap, rootNodes) := acc in
  match JsMap.get hashCode nodeMap with
  | None => acc
  | Some node =>
      match PowerShellAstNode.parentHashCode node with
      | None => (nodeMap, rootNodes ++ [hashCode])
      | Some ph =>
          match JsMap.get ph nodeMap with
          | Some parent =>
              (JsMap.set ph (PowerShellAstNode.push_child hashCode parent)
                         nodeMap,
               rootNodes)
          | None => acc
          end
      end
  end.

(** Second pass: the entries of [nodeMap] in insertion order. *)
Definition secondPass (nodeMap : NodeMap) : NodeMap * list Z :=
  fold_left link (JsMap.keys nodeMap) (nodeMap, []).

(** [buildTreeFromFlatData(flatData)] for an array [flatData]: the
    objects as the two passes leave them, and [rootNodes], the array
    returned. *)
Definition buildTreeFromFlatData (flatData : list FlatAstNode.t)
  : NodeMap * list Z :=
  match flatData with
  | [] => ([], [])
  | _ :: _ => secondPass (firstPass flatData)
  end.

(** All of a list of optional results, or nothing. *)
Fixpoint sequence {A} (l : list (option A)) : option (list A) :=
  match l with
  | [] => Some []
  | None :: _ => None
  | Some a :: l' =>
      match sequence l' with
      | Some r => Some (a :: r)
      | None => None
      end
  end.

(** The tree a reference stands for in a store, followed through
    [children] at most [fuel] levels deep. *)
Fixpoint readTree (fuel : nat) (store : NodeMap) (ref : Z) : option Tree :=
  match fuel with
  | O => None
  | S fuel' =>
      match JsMap.get ref store with
      | None => None
      | Some node =>
          match sequence (map (readTree fuel' store)
                              (PowerShellAstNode.children node)) with
          | Some cs => Some (TreeNode node cs)
          | None => None
          end
      end
  end.

(** The forest an array of references stands for. *)
Definition readForest (fuel : nat) (store : NodeMap) (refs : list Z)
  : option (list Tree) :=
  sequence (map (readTree fuel store) refs).

(** The forest [buildTreeFromFlatData] returns. *)
Definition builtForest (fuel : nat) (flatData : list FlatAstNode.t)
  : option (list Tree) :=
  let '(store, rootNodes) := buildTreeFromFlatData flatData in
  readForest fuel store rootNodes.

(** The nodes of a tree, a node before its children and the children
    left to right: the order in which [collectNodes] of
    [AstState.setAstData] visits them. *)
Fixpoint preorder (t : Tree) : list PowerShellAstNode.t :=
  match t with
  | TreeNode n cs => n :: flat_map preorder cs
  end.

Definition flatten (forest : list Tree) : list PowerShellAstNode.t :=
  flat_map preorder forest.

(** A tree node as the first pass made it, before any child was pushed. *)
Definition unlinked (n : PowerShellAstNode.t) : PowerShellAstNode.t :=
  PowerShellAstNode.set_children [] n.

(** *** Conditions on a flat list *)

Definition hashes (flatData : list FlatAstNode.t) : list Z :=
  map FlatAstNode.hashCode flatData.

Definition isRoot (n : FlatAstNode.t) : bool :=
  match FlatAstNode.parentHashCode n with None => true | Some _ => false end.

Definition mem (k : Z) (l : list Z) : bool := existsb (Z.eqb k) l.

(** The parent hash of [n] resolves. *)
Definition resolves (flatData : list FlatAstNode.t) (n : FlatAstNode.t) : bool :=
  match FlatAstNode.parentHashCode n with
  | None => true
  | Some ph => mem ph (hashes flatData)
  end.


(** Every parent hash resolves. *)
Definition consistent (flatData : list FlatAstNode.t) : bool :=
  forallb (resolves flatData) flatData.

Fixpoint distinct (l : list Z) : bool :=
  match l with
  | [] => true
  | k :: l' => negb (mem k l') && distinct l'
  end.

(** Identity hashes are unique within the list. *)
Definition uniqueHashes (flatData : list FlatAstNode.t) : bool :=
  distinct (hashes flatData).

(** The parent hash recorded for hash [k]. *)
Fixpoint parentOf (flatData : list FlatAstNode.t) (k : Z) : option (option Z) :=
  match flatData with
  | [] => None
  | n :: rest =>
      if (k =? FlatAstNode.hashCode n)%Z
      then Some (FlatAstNode.parentHashCode n)
      else parentOf rest k
  end.

(** The number of parent links from [k] up to a node without parent, if
    such a node is reached within [fuel] nodes. *)
Fixpoint depth (fuel : nat) (flatData : list FlatAstNode.t) (k : Z) : option nat :=
  match fuel with
  | O => None
  | S fuel' =>
      match parentOf flatData k with
      | None => None
      | Some None => Some O
      | Some (Some ph) =>
          match depth fuel' flatData ph with
          | Some d => Some (S d)
          | None => None
          end
      end
  end.

(** No cycle of parent links: from every node the links lead up to a
    node without parent. *)
Definition acyclic (flatData : list FlatAstNode.t) : bool :=
  forallb
    (fun n =>
       match depth (length flatData) flatData (FlatAstNode.hashCode n) with
       | Some _ => true
       | None => false
       end)
    flatData.

(** *** What the second pass has done after some of the entries *)

(** The hashes among [ks] whose node names [p] as its parent. *)
Definition childrenAmong (flatData : list FlatAstNode.t) (ks : list Z) (p : Z)
  : list Z :=
  filter (fun c => match parentOf flatData c with
                   | Some (Some ph) => (ph =? p)%Z
                   | _ => false
                   end) ks.

(** The hashes among [ks] whose node has no parent. *)
Definition rootsAmong (flatData : list FlatAstNode.t) (ks : list Z) : list Z :=
  filter (fun c => match parentOf flatData c with
                   | Some None => true
                   | _ => false
                   end) ks.

(** The tree node of [n] once the entries [ks] have been linked. *)
Definition linkedNode (flatData : list FlatAstNode.t) (ks : list Z)
           (n : FlatAstNode.t) : PowerShellAstNode.t :=
  PowerShellAstNode.set_children
    (childrenAmong flatData ks (FlatAstNode.hashCode n)) (treeNode n).

Definition linkedStore (flatData : list FlatAstNode.t) (ks : list Z) : NodeMap :=
  map (fun n => (FlatAstNode.hashCode n, linkedNode flatData ks n)) flatData.

(** The hashes at [depth] [d]. *)
Definition level (flatData : list FlatAstNode.t) (d : nat) : list Z :=
  filter (fun k => match depth (length flatData) flatData k with
                   | Some d' => Nat.eqb d' d
                   | None => false
                   end) (hashes flatData).

(** The references met from [k] downwards through [kids], a node before
    its children, at most [fuel] levels deep. *)
Fixpoint flatKeys (kids : Z -> list Z) (fuel : nat) (k : Z) : list Z :=
  match fuel with
  | O => []
  | S fuel' => k :: flat_map (flatKeys kids fuel') (kids k)
  end.

(** *** Flat lists for examples *)

(** A flat node of which only the two hashes matter. *)
Definition bare (hashCode : Z) (parentHashCode : option Z) : FlatAstNode.t :=
  FlatAstNode.mk [] hashCode parentHashCode [] [] [] 1 1 1 1 0 None.

(** Two nodes, each the parent of the other. *)
Definition cyclicPair : list FlatAstNode.t :=
  [bare 1 (Some 2%Z); bare 2 (Some 1%Z)].

(** A root, and a node that is its own parent. *)
Definition selfParent : list FlatAstNode.t :=
  [bare 1 None; bare 2 (Some 2%Z)].

(** A root with two children, one of which has a child. *)
Definition smallTree : list FlatAstNode.t :=
  [bare 10 None; bare 11 (Some 10%Z); bare 12 (Some 10%Z); bare 13 (Some 12%Z)].


End TreeBuilder.

(** ** extension.ts: the scan of the revealNodeForSelection command *)

Module Locator.

(** [node.startLine < line || (node.startLine === line &&
    node.startColumn <= column)] *)
Definition startsBefore (node : PowerShellAstNode.t) (line column : Z) : bool :=
  ((PowerShellAstNode.startLine node <? line)
   || ((PowerShellAstNode.startLine node =? line)
       && (PowerShellAstNode.startColumn node <=? column)))%Z.

(** [node.endLine > line || (node.endLine === line &&
    node.endColumn >= column)] *)
Definition endsAfter (node : PowerShellAstNode.t) (line column : Z) : bool :=
  ((PowerShellAstNode.endLine node >? line)
   || ((PowerShellAstNode.endLine node =? line)
       && (PowerShellAstNode.endColumn node >=? column)))%Z.

(** The two nested conditions under which the scan looks at a node. *)
Definition containsPosition (node : PowerShellAstNode.t) (line column : Z) : bool :=
  if startsBefore node line column
  then if endsAfter node line column then true else false
  else false.

(** The body of the loop over [astState.nodeMap.values()]. *)
Definition visit (line column : Z) (foundNode : option PowerShellAstNode.t)
           (node : PowerShellAstNode.t) : option PowerShellAstNode.t :=
  if startsBefore node line column then
    if endsAfter node line column then
      match foundNode with
      | None => Some node
      | Some found =>
          if (PowerShellAstNode.textLength node
              <=? PowerShellAstNode.textLength found)%Z
          then Some node
          else foundNode
      end
    else foundNode
  else foundNode.

(** [foundNode] after the loop, for a 1-based position. *)
Definition locate (values : list PowerShellAstNode.t) (line column : Z)
  : option PowerShellAstNode.t :=
  fold_left (visit line column) values None.

(** The command, from the 0-based position of the editor's cursor. *)
Definition revealNodeForSelection (values : list PowerShellAstNode.t)
           (pos_line pos_character : Z) : option PowerShellAstNode.t :=
  let line := (pos_line + 1)%Z in
  let column := (pos_character + 1)%Z in
  locate values line column.

(** What [foundNode] is after the nodes [seen]. *)
Definition smallest_of (line column : Z) (seen : list PowerShellAstNode.t)
           (found : option PowerShellAstNode.t) : Prop :=
  match found with
  | Some f =>
      In f seen
      /\ containsPosition f line column = true
      /\ forall node, In node seen -> containsPosition node line column = true ->
                      (PowerShellAstNode.textLength f <= PowerShellAstNode.textLength node)%Z
  | None =>
      forall node, In node seen -> containsPosition node line column = false
  end.

(** A node of which only the extent and the length matter. *)
Definition spanning (sl sc el ec len : Z) : PowerShellAstNode.t :=
  PowerShellAstNode.mk [] [] [] sl sc el ec len [] [] [] 0 None.

(** Three nested nodes: lines 1 to 10, lines 2 to 5, and columns 1 to 9
    of line 3. *)
Definition outer : PowerShellAstNode.t := spanning 1 1 10 1 100.
Definition middle : PowerShellAstNode.t := spanning 2 1 5 1 40.
Definition inner : PowerShellAstNode.t := spanning 3 1 3 9 8.

(** What [foundNode] is after the nodes [seen], with its place among
    them: no node before it that contains the position is shorter, and
    every node after it that contains the position is longer. *)
Definition last_smallest_of (line column : Z) (seen : list PowerShellAstNode.t)
           (found : option PowerShellAstNode.t) : Prop :=
  match found with
  | Some f =>
      exists before after,
        seen = before ++ f :: after
        /\ containsPosition f line column = true
        /\ (forall node, In node before ->
                         containsPosition node line column = true ->
                         (PowerShellAstNode.textLength f
                          <= PowerShellAstNode.textLength node)%Z)
        /\ (forall node, In node after ->
                         containsPosition node line column = true ->
                         (PowerShellAstNode.textLength f
                          < PowerShellAstNode.textLength node)%Z)
  | None =>
      forall node, In node seen -> containsPosition node line column = false
  end.

End Locator.

(** ** extension.ts: PowerShellAstAnalyzer.analyzeContent *)

Module Analyzer.

(** An error object: its [name] and its [message]. *)
Record JsError := mkError { name : jsstring; message : jsstring }.

(** [new Error(message)] *)
Definition Error (message : jsstring) : JsError :=
  mkError (JsString.lit "Error") message.

(** [`${error}`], that is [Error.prototype.toString]. *)
Definition toString (e : JsError) : jsstring :=
  match name e, message e with
  | [], m => m
  | n, [] => n
  | n, m => n ++ JsString.lit ": " ++ m
  end.

(** A computation that returns or throws. *)
Definition Completion (A : Type) : Type := A + JsError.

Definition ret {A} (a : A) : Completion A := inl a.
Definition throw {A} (e : JsError) : Completion A := inr e.

Definition bind {A B} (c : Completion A) (k : A -> Completion B)
  : Completion B :=
  match c with
  | inl a => k a
  | inr e => inr e
  end.

(** [try { c } catch (e) { h e }] *)
Definition try_catch {A} (c : Completion A) (h : JsError -> Completion A)
  : Completion A :=
  match c with
  | inl a => inl a
  | inr e => h e
  end.

Notation "x <- c ;; k" := (bind c (fun x => k))
  (at level 61, c at next level, right associativity).

(** *** executePowerShell *)

Definition isDigitOrSemicolon (c : N) : bool :=
  ((48 <=? c) && (c <=? 57) || (c =? 59))%N.

(** The length of the longest prefix of digits and semicolons. *)
Fixpoint parameterRun (s : jsstring) : nat :=
  match s with
  | [] => O
  | c :: s' => if isDigitOrSemicolon c then S (parameterRun s') else O
  end.

(** The length of the match of [/\x1b\[[0-9;]*m/] at the start of [s],
    if it matches there. *)
Definition ansiMatch (s : jsstring) : option nat :=
  match s with
  | a :: b :: rest =>
      if ((a =? 27) && (b =? 91))%N then
        let k := parameterRun rest in
        match skipn k rest with
        | m :: _ => if (m =? 109)%N then Some (k + 3) else None
        | [] => None
        end
      else None
  | _ => None
  end.

(** [s.replace(/\x1b\[[0-9;]*m/g, '')] *)
Fixpoint stripAnsi_from (skip : nat) (s : jsstring) : jsstring :=
  match s with
  | [] => []
  | c :: s' =>
      match skip with
      | S k => stripAnsi_from k s'
      | O =>
          match ansiMatch s with
          | Some n => stripAnsi_from (n - 1) s'
          | None => c :: stripAnsi_from 0 s'
          end
      end
  end.

Definition stripAnsi (s : jsstring) : jsstring := stripAnsi_from 0 s.

(** [s.replace(/\r\n/g, '\n')] *)
Fixpoint normalizeLineEndings (s : jsstring) : jsstring :=
  match s with
  | [] => []
  | c :: s' =>
      match s' with
      | d :: _ =>
          if ((c =? 13) && (d =? 10))%N
          then normalizeLineEndings s'
          else c :: normalizeLineEndings s'
      | [] => [c]
      end
  end.

(** [`${code}`] for the exit code of the ['close'] event, [null] when
    the process was ended by a signal. *)
Definition exitCodeText (code : option Z) : jsstring :=
  match code with
  | Some c => JsString.ofZ c
  | None => JsString.lit "null"
  end.

(** The listener of the ['close'] event: how the promise of
    [executePowerShell] is settled. *)
Definition executePowerShell_onClose (code : option Z) (stdout stderr : jsstring)
  : Completion jsstring :=
  match code with
  | Some 0%Z =>
      let cleanOutput :=
        JsString.trim (normalizeLineEndings (stripAnsi stdout)) in
      ret cleanOutput
  | _ =>
      throw (Error (JsString.lit "PowerShell execution failed (exit code "
                    ++ exitCodeText code
                    ++ JsString.lit "). STDERR: " ++ stderr
                    ++ JsString.lit ". STDOUT: " ++ stdout))
  end.

(** *** analyzeContent *)

Record ParseError := mkParseError {
  pe_message : jsstring;
  pe_startLine : Z;
  pe_startColumn : Z;
  pe_endLine : Z;
  pe_endColumn : Z
}.

(** The documents the parser script prints, decoded: an array of flat
    nodes; the object [{ nodes, errors }]; the object
    [{ error: true, message, type }] of its [catch] block. *)
Inductive AstData :=
| AstArray (flatData : list FlatAstNode.t)
| AstResult (nodes : list FlatAstNode.t) (errors : list ParseError)
| AstError (message : jsstring) (type : jsstring).

(** [astData.error], as a condition. *)
Definition hasError (astData : AstData) : bool :=
  match astData with
  | AstError _ _ => true
  | _ => false
  end.

(** [`${astData.message}`] *)
Definition messageText (astData : AstData) : jsstring :=
  match astData with
  | AstError m _ => m
  | _ => JsString.lit "undefined"
  end.

(** [buildTreeFromFlatData(astData)]: only an array gets past the guard
    [!Array.isArray(flatData) || flatData.length === 0]. *)
Definition buildTree (astData : AstData) : TreeBuilder.NodeMap * list Z :=
  match astData with
  | AstArray flatData => TreeBuilder.buildTreeFromFlatData flatData
  | _ => ([], [])
  end.

(** [result.substring(0, 200)] *)
Definition substring200 (s : jsstring) : jsstring := firstn 200 s.

(** What [analyzeContent] gives back: the value of the promise (the
    store of tree nodes and the array of roots), or the error it is
    rejected with; and the messages it had [vscode.window] show. *)
Record Outcome := mkOutcome {
  completion : Completion (TreeBuilder.NodeMap * list Z);
  shown : list jsstring
}.

(** [static async analyzeContent(content)], from the point where the
    promise of [executePowerShell] is settled with [executed].
    [JSON_parse] is [JSON.parse] followed by the decoding above. *)
Definition analyzeContent (JSON_parse : jsstring -> Completion AstData)
           (executed : Completion jsstring) : Outcome :=
  let body : Completion (TreeBuilder.NodeMap * list Z) :=
    result <- executed ;;
    if JsString.truthy (JsString.trim result) then
      try_catch
        (astData <- JSON_parse result ;;
         if hasError astData
         then throw (Error (JsString.lit "PowerShell parsing error: "
                            ++ messageText astData))
         else ret (buildTree astData))
        (fun parseError =>
           throw (Error (JsString.lit "JSON parsing failed: "
                         ++ toString parseError
                         ++ JsString.lit ". Raw output: "
                         ++ substring200 result ++ JsString.lit "...")))
    else throw (Error (JsString.lit "No output returned from PowerShell script")) in
  match body with
  | inl mappedData => mkOutcome (ret mappedData) []
  | inr error =>
      mkOutcome (ret ([], []))
                [JsString.lit "Failed to analyze PowerShell AST: "
                 ++ toString error]
  end.

(** The report the script's [catch] block prints for the message
    [boom]. *)
Definition failureReport : jsstring :=
  JsString.lit "{"
  ++ JsString.quoted (JsString.lit "error") ++ JsString.lit ":true,"
  ++ JsString.quoted (JsString.lit "message") ++ JsString.lit ":"
  ++ JsString.quoted (JsString.lit "boom") ++ JsString.lit ","
  ++ JsString.quoted (JsString.lit "type") ++ JsString.lit ":"
  ++ JsString.quoted (JsString.lit "ParseError") ++ JsString.lit "}".

(** A decoder that reads that report. *)
Definition decodeFailure (text : jsstring) : Completion AstData :=
  ret (AstError (JsString.lit "boom") (JsString.lit "ParseError")).

End Analyzer.

(** ** PowerShellRunner.ts: runs of calls and events *)

Module RunnerTrace.

Import Runner.

(** The promises of a state: those in the queue, those settled, and the
    number handed out. *)
Definition ids (st : State) : list nat * list nat * nat :=
  (pendingCallbacks (fst st), map fst (settled (snd st)), promises (snd st)).

(** The ways one call or event changes the promises of a state: not at
    all; the head of the queue is settled; a new promise is settled at once;
    a new promise is queued; or one after the other. *)
Inductive moved : list nat * list nat * nat -> list nat * list nat * nat -> Prop :=
| moved_none x : moved x x
| moved_shift h rest done n : moved (h :: rest, done, n) (rest, done ++ [h], n)
| moved_refuse queue done n : moved (queue, done, n) (queue, done ++ [n], S n)
| moved_queue queue done n : moved (queue, done, n) (queue ++ [n], done, S n)
| moved_then x y z : moved x y -> moved y z -> moved x z.

(** Every promise handed out is in the queue or settled, and none twice;
    the queue holds them oldest first. *)
Definition accounted (x : list nat * list nat * nat) : Prop :=
  let '(queue, done, n) := x in
  Permutation (queue ++ done) (seq 0 n) /\ StronglySorted lt queue.

(** The chunks an interpreter sends while it works on one command: any
    chunks on standard error, and chunks on standard output none of which
    holds the sentinel. *)
Definition isOutput (e : Event) : bool :=
  match e with
  | StdoutData chunk => negb (JsString.includes END_OF_COMMAND chunk)
  | StderrData _ => true
  | _ => false
  end.

(** What those chunks put on standard output and on standard error. *)
Fixpoint stdoutOf (es : list Event) : jsstring :=
  match es with
  | [] => []
  | StdoutData chunk :: es' => chunk ++ stdoutOf es'
  | _ :: es' => stdoutOf es'
  end.

Fixpoint stderrOf (es : list Event) : jsstring :=
  match es with
  | [] => []
  | StderrData chunk :: es' => chunk ++ stderrOf es'
  | _ :: es' => stderrOf es'
  end.

(** The settlement [resolveCurrentCommand] chooses for the two buffers. *)
Definition answer (data error : jsstring) : Settlement :=
  if negb (JsString.isBlank error) && JsString.isBlank data
  then Rejected (StderrText error)
  else Resolved (JsString.trim data).

(** A settlement as [resolveCurrentCommand] makes them: a value without
    white space at either end, or an error text that is not blank. *)
Definition tidy (o : Settlement) : Prop :=
  match o with
  | Resolved value =>
      JsString.trimStart value = value /\ JsString.trimEnd value = value
  | Rejected (StderrText text) => JsString.trim text <> []
  | Rejected _ => True
  end.

(** One call or event settles at most one promise, and tidily. *)
Definition settles (st st' : State) : Prop :=
  settled (snd st') = settled (snd st)
  \/ exists p o, settled (snd st') = settled (snd st) ++ [(p, o)] /\ tidy o.

End RunnerTrace.

(** ** extension.ts: what the builder keeps true of its index *)

Module TreeIndex.

Import TreeBuilder.

(** A store in which every object sits under its own hash, no key occurs
    twice, and every reference is a key. *)
Definition sound (keys : list Z) (acc : NodeMap * list Z) : Prop :=
  JsMap.keys (fst acc) = keys
  /\ NoDup keys
  /\ (forall k node, In (k, node) (fst acc) ->
                     PowerShellAstNode.hashCode node = k
                     /\ incl (PowerShellAstNode.children node) keys)
  /\ incl (snd acc) keys.

(** The flat nodes that name [p] as their parent. *)
Definition namesParent (p : Z) (c : FlatAstNode.t) : bool :=
  match FlatAstNode.parentHashCode c with
  | Some ph => (ph =? p)%Z
  | None => false
  end.

End TreeIndex.

(** ** extension.ts: AstPropertiesProvider.escapeHtml *)

Module Html.

(** [text.replace(/c/g, replacement)] for one character [c] and a
    replacement without [$]. *)
Definition replaceAll (c : N) (replacement : jsstring) (text : jsstring)
  : jsstring :=
  flat_map (fun x => if (x =? c)%N then replacement else [x]) text.

Definition amp : N := 38.
Definition lt : N := 60.
Definition gt : N := 62.
Definition quot : N := 34.
Definition apos : N := 39.

(** [private escapeHtml(text)] *)
Definition escapeHtml (text : jsstring) : jsstring :=
  replaceAll apos (JsString.lit "&#39;")
    (replaceAll quot (JsString.lit "&quot;")
       (replaceAll gt (JsString.lit "&gt;")
          (replaceAll lt (JsString.lit "&lt;")
             (replaceAll amp (JsString.lit "&amp;") text)))).

(** What one character becomes. *)
Definition escapeChar (c : N) : jsstring :=
  if (c =? amp)%N then JsString.lit "&amp;"
  else if (c =? lt)%N then JsString.lit "&lt;"
  else if (c =? gt)%N then JsString.lit "&gt;"
  else if (c =? quot)%N then JsString.lit "&quot;"
  else if (c =? apos)%N then JsString.lit "&#39;"
  else [c].

(** The characters with a meaning in markup that [escapeHtml] removes. *)
Definition isMarkup (c : N) : bool :=
  ((c =? lt) || (c =? gt) || (c =? quot) || (c =? apos))%N.

(** How one character was escaped: kept, or as one of the five
    entities. *)
Inductive Escaped (x : N) : jsstring -> Prop :=
| escaped_amp : x = amp -> Escaped x (JsString.lit "&amp;")
| escaped_lt : x = lt -> Escaped x (JsString.lit "&lt;")
| escaped_gt : x = gt -> Escaped x (JsString.lit "&gt;")
| escaped_quot : x = quot -> Escaped x (JsString.lit "&quot;")
| escaped_apos : x = apos -> Escaped x (JsString.lit "&#39;")
| escaped_kept : x <> amp -> Escaped x [x].

End Html.

(** ** extension.ts: the highlightInEditor command *)

Module Editor.

(** [new vscode.Position(line, character)]: both must be non-negative,
    or the constructor throws. *)
Definition Position (line character : Z) : option (Z * Z) :=
  if ((line <? 0) || (character <? 0))%Z then None else Some (line, character).

(** [a.isBeforeOrEqual(b)] *)
Definition isBeforeOrEqual (a b : Z * Z) : bool :=
  ((fst a <? fst b) || ((fst a =? fst b) && (snd a <=? snd b)))%Z.

(** [new vscode.Range(start, end)]: the two positions, the earlier
    first. *)
Definition Range (a b : Z * Z) : (Z * Z) * (Z * Z) :=
  if isBeforeOrEqual a b then (a, b) else (b, a).

(** The selection the command sets,
    [new vscode.Selection(range.start, range.end)], as its anchor and its
    active position; nothing, when a [Position] throws. *)
Definition highlightInEditor (node : PowerShellAstNode.t)
  : option ((Z * Z) * (Z * Z)) :=
  match Position (PowerShellAstNode.startLine node - 1)
                 (PowerShellAstNode.startColumn node - 1),
        Position (PowerShellAstNode.endLine node - 1)
                 (PowerShellAstNode.endColumn node - 1) with
  | Some a, Some b =>
      let range := Range a b in
      Some (fst range, snd range)
  | _, _ => None
  end.

End Editor.

(** ** extension.ts: AstState and AstTreeDataProvider *)

(** The subtrees of a tree, a tree before the subtrees of its children. *)
Fixpoint subtrees (t : Tree) : list Tree :=
  match t with
  | TreeNode _ cs => t :: flat_map subtrees cs
  end.

Definition children_of (t : Tree) : list Tree :=
  match t with TreeNode _ cs => cs end.

(** The hash a tree node object is put under. *)
Definition hashOf (t : Tree) : Z := PowerShellAstNode.hashCode (root_of t).

Definition entryOf (t : Tree) : Z * Tree := (hashOf t, t).

(** Every child names its parent. *)
Definition linked (t : Tree) : Prop :=
  forall s, In s (subtrees t) ->
            forall c, In c (children_of s) ->
                      PowerShellAstNode.parentHashCode (root_of c)
                      = Some (hashOf s).

(** Induction on a tree, with the property known of every child. *)
Fixpoint Tree_forall_ind (P : Tree -> Prop)
         (H : forall node cs, Forall P cs -> P (TreeNode node cs))
         (t : Tree) : P t :=
  match t with
  | TreeNode node cs =>
      H node cs
        ((fix go (l : list Tree) : Forall P l :=
            match l with
            | [] => Forall_nil P
            | c :: l' => Forall_cons c (Tree_forall_ind P H c) (go l')
            end) cs)
  end.

Module AstState.

(** What the state tells [vscode]: a context key it sets, and the two
    events it fires. *)
Inductive UiEvent :=
| SetContext (key : jsstring) (value : bool)
| SelectionChanged (node : option Tree)
| AnalyzingChanged (analyzing : bool).

(** The fields of the class.  A tree node object is here the tree it is
    the root of. *)
Record t := mk {
  currentNode : option Tree;
  astData : list Tree;
  currentFilePath : option jsstring;
  isAnalyzing : bool;
  nodeMap : JsMap.t Tree
}.

Definition initial : t := mk None [] None false [].

(** [setSelection(node)] *)
Definition setSelection (node : option Tree) (s : t) : t * list UiEvent :=
  (mk node (astData s) (currentFilePath s) (isAnalyzing s) (nodeMap s),
   [SelectionChanged node]).

(** [setAnalyzing(analyzing)] *)
Definition setAnalyzing (analyzing : bool) (s : t) : t * list UiEvent :=
  (mk (currentNode s) (astData s) (currentFilePath s) analyzing (nodeMap s),
   [AnalyzingChanged analyzing;
    SetContext (JsString.lit "powershellAst.isAnalyzing") analyzing]).

(** One turn of the loop of [collectNodes], at [node]: the node is put
    under its hash, then its children are collected. *)
Fixpoint collectNode (node : Tree) (nodeMap : JsMap.t Tree) : JsMap.t Tree :=
  match node with
  | TreeNode n cs =>
      let nodeMap1 := JsMap.set (PowerShellAstNode.hashCode n) node nodeMap in
      match cs with
      | [] => nodeMap1
      | _ :: _ => fold_left (fun m c => collectNode c m) cs nodeMap1
      end
  end.

(** [collectNodes(nodes)] *)
Definition collectNodes (nodes : list Tree) (nodeMap : JsMap.t Tree)
  : JsMap.t Tree :=
  fold_left (fun m node => collectNode node m) nodes nodeMap.

(** [filePath || null] *)
Definition orNull (filePath : option jsstring) : option jsstring :=
  match filePath with
  | Some (_ :: _) => filePath
  | _ => None
  end.

(** [setAstData(data, filePath)] *)
Definition setAstData (data : list Tree) (filePath : option jsstring) (s : t)
  : t * list UiEvent :=
  let s1 := mk (currentNode s) data (orNull filePath) (isAnalyzing s)
               (collectNodes data []) in
  let hasData := 0 <? length data in
  let '(s2, fired) := setSelection (hd_error data) s1 in
  (s2, SetContext (JsString.lit "powershellAst.hasAstData") hasData :: fired).

(** [clear()] *)
Definition clear (s : t) : t * list UiEvent :=
  let s1 := mk (currentNode s) [] None (isAnalyzing s) [] in
  let '(s2, fired) := setSelection None s1 in
  (s2, fired ++ [SetContext (JsString.lit "powershellAst.hasAstData") false]).

(** [AstTreeDataProvider.getChildren(element)] *)
Definition getChildren (s : t) (element : option Tree) : list Tree :=
  match element with
  | None => astData s
  | Some node => children_of node
  end.

(** [AstTreeDataProvider.getParent(element)] *)
Definition getParent (s : t) (element : Tree) : option Tree :=
  match PowerShellAstNode.parentHashCode (root_of element) with
  | None => None
  | Some ph => JsMap.get ph (nodeMap s)
  end.

(** The nodes the reveal command scans: [astState.nodeMap.values()]. *)
Definition indexed (s : t) : list PowerShellAstNode.t :=
  map root_of (JsMap.values (nodeMap s)).

End AstState.

(** ** extension.ts: the expandAll command *)

Module ExpandAll.

Definition Levels : Type := JsMap.t (list Tree).

(** [nodesByLevel.get(level) || []] *)
Definition bucket (level : Z) (nodesByLevel : Levels) : list Tree :=
  match JsMap.get level nodesByLevel with
  | Some nodes => nodes
  | None => []
  end.

(** The array under [level] is made if it is missing, and [nodes] are
    pushed to it. *)
Definition pushAll (level : Z) (nodes : list Tree) (nodesByLevel : Levels)
  : Levels :=
  JsMap.set level (bucket level nodesByLevel ++ nodes) nodesByLevel.

(** One turn of the loop of [collectNodesByLevel], at [node]. *)
Fixpoint visit (node : Tree) (level : Z) (nodesByLevel : Levels) : Levels :=
  match node with
  | TreeNode _ cs =>
      let nodesByLevel1 := pushAll level [node] nodesByLevel in
      match cs with
      | [] => nodesByLevel1
      | _ :: _ =>
          let childLevels :=
            fold_left (fun m c => visit c (level + 1)%Z m) cs [] in
          fold_left
            (fun m entry => pushAll (fst entry) (snd entry) m)
            childLevels nodesByLevel1
      end
  end.

(** [collectNodesByLevel(nodes, level)] *)
Definition collectNodesByLevel (nodes : list Tree) (level : Z) : Levels :=
  fold_left (fun m node => visit node level m) nodes [].

(** [Math.max(...Array.from(nodesByLevel.keys()))]; [None] is
    [-Infinity], the maximum of no numbers. *)
Definition maxLevel (nodesByLevel : Levels) : option Z :=
  match JsMap.keys nodesByLevel with
  | [] => None
  | k :: ks => Some (fold_left Z.max ks k)
  end.

(** [node.children && node.children.length > 0] *)
Definition hasChildren (node : Tree) : bool :=
  match children_of node with
  | [] => false
  | _ :: _ => true
  end.

(** The levels [0] to [maxLevel]. *)
Definition levelsUpTo (maxLevel : option Z) : list Z :=
  match maxLevel with
  | None => []
  | Some m => map Z.of_nat (seq 0 (Z.to_nat (m + 1)))
  end.

(** The command: the nodes it has the tree view reveal, in order. *)
Definition expandAll (astData : list Tree) : list Tree :=
  let nodesByLevel := collectNodesByLevel astData 0 in
  flat_map (fun level => filter hasChildren (bucket level nodesByLevel))
           (levelsUpTo (maxLevel nodesByLevel)).

(** The subtrees [d] levels below a tree. *)
Fixpoint atDepth (d : nat) (t : Tree) : list Tree :=
  match d with
  | O => [t]
  | S d' => flat_map (atDepth d') (children_of t)
  end.

(** One turn of the loop that takes over the levels of the children. *)
Definition merge (m : Levels) (entry : Z * list Tree) : Levels :=
  pushAll (fst entry) (snd entry) m.

(** What visiting a tree at [level] adds to the levels. *)
Definition visited (t : Tree) : Prop :=
  forall level m,
    NoDup (JsMap.keys m) ->
    let m' := visit t level m in
    NoDup (JsMap.keys m')
    /\ (forall d : nat,
           bucket (level + Z.of_nat d) m'
           = bucket (level + Z.of_nat d) m ++ atDepth d t)
    /\ (forall k, (k < level)%Z -> bucket k m' = bucket k m)
    /\ (forall k, In k (JsMap.keys m') -> In k (JsMap.keys m) \/ (level <= k)%Z)
    /\ Permutation (concat (JsMap.values m'))
                   (concat (JsMap.values m) ++ subtrees t).

End ExpandAll.

(** ** extension.ts: DocStore *)

Module DocStore.

(** [a === b] on strings. *)
Fixpoint eqb (a b : jsstring) : bool :=
  match a, b with
  | [], [] => true
  | x :: a', y :: b' => (x =? y)%N && eqb a' b'
  | _, _ => false
  end.

Record AstDocProperty := mkProperty {
  p_Name : jsstring;
  p_TypeName : option jsstring;       (* [None]: not a string *)
  p_Summary : option jsstring
}.

Record AstDocEntry := mkEntry {
  Name : option jsstring;             (* [None]: missing *)
  Summary : option jsstring;
  Properties : option (list AstDocProperty)
}.

(** [Map<string, AstDocEntry>]: the entries in insertion order. *)
Definition t : Type := list (jsstring * AstDocEntry).

Fixpoint get (k : jsstring) (m : t) : option AstDocEntry :=
  match m with
  | [] => None
  | (k', v) :: m' => if eqb k k' then Some v else get k m'
  end.

Fixpoint set (k : jsstring) (v : AstDocEntry) (m : t) : t :=
  match m with
  | [] => [(k, v)]
  | (k', v') :: m' =>
      if eqb k k' then (k', v) :: m' else (k', v') :: set k v m'
  end.

(** What [loadFromFileSync] finds: no file; a file that cannot be read
    or parsed; a document that cannot be iterated; or an array, whose
    elements are entries or [null]. *)
Inductive FileContent :=
| Missing
| Unparsable
| NotIterable
| Entries (data : list (option AstDocEntry)).

(** The body of the loop over [data]. *)
Definition store (byType : t) (entry : option AstDocEntry) : t :=
  match entry with
  | Some e =>
      match Name e with
      | Some (c :: name) => set (c :: name) e byType
      | _ => byType
      end
  | None => byType
  end.

(** [loadFromFileSync(jsonPath)], given what is at [jsonPath]. *)
Definition loadFromFileSync (file : FileContent) (byType : t) : t :=
  match file with
  | Missing => byType
  | Unparsable => byType
  | NotIterable => []
  | Entries data => fold_left store data []
  end.

(** [getTypeSummary(typeName)] *)
Definition getTypeSummary (byType : t) (typeName : jsstring) : option jsstring :=
  match get typeName byType with
  | Some e => Summary e
  | None => None
  end.

(** [getDisplayTypeName(typeName)] *)
Definition getDisplayTypeName (byType : t) (typeName : jsstring)
  : option jsstring :=
  match get typeName byType with
  | Some e => Name e
  | None => None
  end.

Definition propertiesOf (byType : t) (typeName : jsstring)
  : list AstDocProperty :=
  match get typeName byType with
  | Some e => match Properties e with Some ps => ps | None => [] end
  | None => []
  end.

(** [getPropertySummary(typeName, propName)] *)
Definition getPropertySummary (byType : t) (typeName propName : jsstring)
  : option jsstring :=
  match find (fun p => eqb (p_Name p) propName) (propertiesOf byType typeName) with
  | Some found => p_Summary found
  | None => None
  end.

(** [getPropertyTypeName(typeName, propName)] *)
Definition getPropertyTypeName (byType : t) (typeName propName : jsstring)
  : option jsstring :=
  match find (fun p => eqb (p_Name p) propName) (propertiesOf byType typeName) with
  | Some found =>
      match p_TypeName found with
      | Some (c :: name) => Some (c :: name)
      | _ => None
      end
  | None => None
  end.

(** [this.docs.getDisplayTypeName(node.type) || node.type] of
    [getPropertiesHtml]. *)
Definition displayType (byType : t) (type : jsstring) : jsstring :=
  match getDisplayTypeName byType type with
  | Some (c :: name) => c :: name
  | _ => type
  end.

(** An entry that can be stored under [name]. *)
Definition named (name : jsstring) (entry : option AstDocEntry) : bool :=
  match entry with
  | Some e =>
      match Name e with
      | Some (c :: n) => eqb (c :: n) name
      | _ => false
      end
  | None => false
  end.

(** Every entry of the store is stored under its own name. *)
Definition ownNames (m : DocStore.t) : Prop :=
  forall name e, get name m = Some e -> Name e = Some name /\ name <> [].

End DocStore.

(** * Properties *)

(** ** Strings *)

Section StringFacts.

Import JsString.

Lemma startsWith_refl_app (p s : jsstring) : startsWith p (p ++ s) = true.
Proof.
  induction p as [|a p IH]; simpl; [reflexivity|].
  now rewrite N.eqb_refl, IH.
Qed.


(** Only the first [length p] code units of [s] matter. *)
Lemma startsWith_app_long (p u v : jsstring) :
  length p <= length u -> startsWith p (u ++ v) = startsWith p u.
Proof.
  revert u; induction p as [|a p IH]; intros u Hlen; simpl in *.
  - reflexivity.
  - destruct u as [|b u]; simpl in *; [lia|].
    rewrite IH by lia. reflexivity.
Qed.



Lemma includes_app (p a b : jsstring) : includes p (a ++ p ++ b) = true.
Proof.
  induction a as [|c a IH].
  - simpl app. destruct (p ++ b) eqn:E; cbn [includes];
      rewrite <- E, startsWith_refl_app; reflexivity.
  - simpl app. cbn [includes]. rewrite IH. apply orb_true_r.
Qed.

Lemma removelast_length (s : jsstring) :
  s <> [] -> S (length (removelast s)) = length s.
Proof.
  intros Hs. destruct (exists_last Hs) as (s' & c & ->).
  rewrite removelast_last, length_app. simpl. lia.
Qed.

Lemma removelast_snoc (s : jsstring) :
  s <> [] -> exists c, s = removelast s ++ [c].
Proof.
  intros Hs. destruct (exists_last Hs) as (s' & c & ->).
  exists c. now rewrite removelast_last.
Qed.

(** A separator cannot start inside [x] when it does not start there in
    [x] followed by all of the separator but its last code unit. *)
Lemma startsWith_before (sep x after : jsstring) (c : N) :
  sep <> [] ->
  startsWith sep ((c :: x) ++ sep ++ after)
  = startsWith sep ((c :: x) ++ removelast sep).
Proof.
  intros Hsep.
  destruct (removelast_snoc sep Hsep) as [z Hz].
  rewrite Hz at 2.
  rewrite <- (app_assoc (removelast sep)), (app_assoc (c :: x)).
  apply startsWith_app_long.
  rewrite length_app. pose proof (removelast_length sep Hsep). simpl. lia.
Qed.

Lemma split_from_skip (sep cur x s : jsstring) :
  split_from sep (length x) cur (x ++ s) = split_from sep 0 cur s.
Proof.
  induction x as [|c x IH]; simpl.
  - destruct s; reflexivity.
  - exact IH.
Qed.


(** The first part ends where the separator first occurs. *)
Lemma split_from_first (sep cur before after : jsstring) :
  sep <> [] ->
  includes sep (before ++ removelast sep) = false ->
  split_from sep 0 cur (before ++ sep ++ after)
  = (rev cur ++ before) :: split_from sep 0 [] after.
Proof.
  intros Hsep. revert cur.
  induction before as [|c before IH]; intros cur H.
  - rewrite app_nil_r. simpl app.
    destruct sep as [|a sep']; [congruence|].
    change ((a :: sep') ++ after) with (a :: (sep' ++ after)).
    cbn [split_from].
    change (a :: sep' ++ after) with ((a :: sep') ++ after).
    rewrite startsWith_refl_app.
    replace (length (a :: sep') - 1) with (length sep') by (simpl; lia).
    now rewrite split_from_skip.
  - change ((c :: before) ++ removelast sep)
      with (c :: (before ++ removelast sep)) in H.
    cbn [includes] in H. apply orb_false_iff in H as [H1 H2].
    change ((c :: before) ++ sep ++ after)
      with (c :: (before ++ sep ++ after)).
    cbn [split_from].
    change (c :: before ++ sep ++ after)
      with ((c :: before) ++ sep ++ after).
    rewrite (startsWith_before sep before after c Hsep).
    change ((c :: before) ++ removelast sep)
      with (c :: (before ++ removelast sep)).
    rewrite H1, IH by assumption.
    simpl. now rewrite <- app_assoc.
Qed.


Lemma nonblank_truthy (s : jsstring) :
  truthy s && (0 <? length (trim s)) = negb (isBlank s).
Proof.
  unfold isBlank. destruct s as [|c s]; [reflexivity|].
  simpl truthy. destruct (trim (c :: s)); reflexivity.
Qed.


Lemma truthy_trim (s : jsstring) : truthy (trim s) = negb (isBlank s).
Proof. unfold isBlank. destruct (trim s); reflexivity. Qed.

Lemma isBlank_true (s : jsstring) : isBlank s = true <-> trim s = [].
Proof. unfold isBlank. destruct (trim s); split; congruence. Qed.

Lemma isBlank_false (s : jsstring) : isBlank s = false <-> trim s <> [].
Proof. unfold isBlank. destruct (trim s); split; congruence. Qed.

End StringFacts.

(** ** AstParse.ps1: truncation *)

Section Truncation.

Import AstParse.

Lemma TrimString2_short (s : jsstring) (cap : Z) :
  (Z.of_nat (length s) <= cap)%Z -> TrimString2 s cap = s.
Proof.
  intros H. unfold TrimString2. destruct s as [|c s]; [reflexivity|].
  apply Z.leb_le in H. now rewrite H.
Qed.

Lemma TrimString2_long (s : jsstring) (cap : Z) :
  (0 <= cap < Z.of_nat (length s))%Z ->
  TrimString2 s cap = firstn (Z.to_nat cap) s ++ ellipsis
  /\ length (TrimString2 s cap) = Z.to_nat cap + 3.
Proof.
  intros H. unfold TrimString2. destruct s as [|c s]; [simpl in H; lia|].
  replace (Z.of_nat (length (c :: s)) <=? cap)%Z with false
    by (symmetry; apply Z.leb_gt; lia).
  split; [reflexivity|].
  rewrite length_app, length_firstn. change (length ellipsis) with 3. lia.
Qed.

(** C10.  Node text longer than 100 code units is emitted as its first
    100 code units followed by the three-dot ellipsis, a property value
    longer than 200 as its first 200 followed by the ellipsis (so 203 code
    units in all); node text of at most 100 and property values of at most
    200 code units are emitted unchanged. *)
Theorem truncation_rule (s name typeName : jsstring) :
  (length s <= 100 -> nodeData_text s = s)
  /\ (100 < length s ->
      nodeData_text s = firstn 100 s ++ ellipsis
      /\ length (nodeData_text s) = 103)
  /\ (length s <= 200 -> Value (AstProperty_new name s typeName) = s)
  /\ (200 < length s ->
      Value (AstProperty_new name s typeName) = firstn 200 s ++ ellipsis
      /\ length (Value (AstProperty_new name s typeName)) = 203).
Proof.
  unfold nodeData_text, AstProperty_new, TrimString. cbn [Value].
  split; [|split; [|split]]; intros H.
  - apply TrimString2_short. lia.
  - apply (TrimString2_long s 100). lia.
  - apply TrimString2_short. lia.
  - apply (TrimString2_long s 200). lia.
Qed.

(** A property value of 250 code units comes out as 200 and the
    ellipsis. *)
Lemma truncation_rule_witness :
  200 < length (repeat 120%N 250)
  /\ Value (AstProperty_new [] (repeat 120%N 250) [])
     = repeat 120%N 200 ++ ellipsis
  /\ length (Value (AstProperty_new [] (repeat 120%N 250) [])) = 203.
Proof.
  assert (H : 200 < length (repeat 120%N 250)) by (rewrite repeat_length; lia).
  split; [exact H|].
  destruct (truncation_rule (repeat 120%N 250) [] []) as (_ & _ & _ & Hlong).
  destruct (Hlong H) as [Hv Hl].
  split; [|exact Hl].
  rewrite Hv. reflexivity.
Defined.

End Truncation.

(** ** PowerShellRunner.ts *)

Section RunnerFacts.

Import JsString Runner.

Lemma END_OF_COMMAND_nonempty : END_OF_COMMAND <> [].
Proof. discriminate. Qed.

(** C7.  When a response is framed and a request is pending: if the
    standard-error buffer is non-blank and the standard-output buffer is
    blank, the oldest pending request is rejected with the error text; in
    every other case it is resolved with the trimmed standard-output
    text, also when the standard-error buffer is non-blank. *)
Theorem stderr_heuristic (r : PowerShellRunner) (w : World)
        (handler : nat) (rest : list nat) :
  pendingCallbacks r = handler :: rest ->
  (trim (currentError r) <> [] -> trim (currentData r) = [] ->
   resolveCurrentCommand (r, w)
   = (set_pendingCallbacks rest r,
      settle handler (Rejected (StderrText (currentError r))) w))
  /\ (~ (trim (currentError r) <> [] /\ trim (currentData r) = []) ->
      resolveCurrentCommand (r, w)
      = (set_pendingCallbacks rest r,
         settle handler (Resolved (trim (currentData r))) w)).
Proof.
  intros Hq. unfold resolveCurrentCommand. rewrite Hq.
  rewrite nonblank_truthy, truthy_trim.
  split.
  - intros He Hd.
    apply isBlank_false in He. apply isBlank_true in Hd.
    now rewrite He, Hd.
  - intros Hn.
    destruct (isBlank (currentError r)) eqn:He; [reflexivity|].
    destruct (isBlank (currentData r)) eqn:Hd; [|reflexivity].
    exfalso. apply Hn. split.
    + now apply isBlank_false.
    + now apply isBlank_true.
Qed.

(** Standard error alone rejects; standard error next to output does
    not. *)
Lemma stderr_heuristic_witness :
  resolveCurrentCommand
    (mkRunner (Some 0) false [7] (lit " ") (lit "oops"), mkWorld [] 1 [] [] 8)
  = (mkRunner (Some 0) false [] (lit " ") (lit "oops"),
     mkWorld [(7, Rejected (StderrText (lit "oops")))] 1 [] [] 8).
Proof.
  apply (stderr_heuristic
           (mkRunner (Some 0) false [7] (lit " ") (lit "oops"))
           (mkWorld [] 1 [] [] 8) 7 []).
  - reflexivity.
  - vm_compute. discriminate.
  - reflexivity.
Defined.

(** What a chunk that contains the sentinel does, with the chunk cut at
    the first occurrence. *)
Lemma onStdoutData_first (r : PowerShellRunner) (w : World)
      (before after : jsstring) :
  includes END_OF_COMMAND (before ++ removelast END_OF_COMMAND) = false ->
  onStdoutData (before ++ END_OF_COMMAND ++ after) (r, w)
  = let framed :=
      resolveCurrentCommand (set_currentData (currentData r ++ before) r, w) in
    let parts := before :: split END_OF_COMMAND after in
    if (1 <? length parts) && (0 <? length (trim (nth 1 parts [])))
    then (set_currentData (nth 1 parts []) (fst framed), snd framed)
    else framed.
Proof.
  intros Hfirst. unfold onStdoutData.
  rewrite includes_app. unfold split.
  rewrite (split_from_first _ [] before after END_OF_COMMAND_nonempty Hfirst).
  cbn [rev app nth].
  destruct (resolveCurrentCommand _) as [r2 w2]. reflexivity.
Qed.

Lemma set_currentData_pending (d : jsstring) (r : PowerShellRunner) :
  pendingCallbacks (set_currentData d r) = pendingCallbacks r.
Proof. reflexivity. Qed.




(** C2, at a run the code can have: two commands are sent before any
    output arrives; the interpreter answers each with its output, the
    sentinel and a line feed.  Sent as two chunks, the second promise is
    resolved with the output of both commands; sent as one chunk, the
    second promise is left pending. *)
Theorem concurrent_invokes_share_buffer :
  let hello := lit "hello" ++ [10%N] ++ END_OF_COMMAND ++ [10%N] in
  let world := lit "world" ++ [10%N] ++ END_OF_COMMAND ++ [10%N] in
  let sent := [Invoke (lit "echo hello") SpawnPid true;
               Invoke (lit "echo world") SpawnPid true] in
  let two := run started (sent ++ [StdoutData hello; StdoutData world]) in
  let one := run started (sent ++ [StdoutData (hello ++ world)]) in
  (settled (snd two)
   = [(0, Resolved (lit "hello"));
      (1, Resolved (lit "hello" ++ [10%N] ++ lit "world"))]
   /\ pendingCallbacks (fst two) = [])
  /\ (settled (snd one) = [(0, Resolved (lit "hello"))]
      /\ pendingCallbacks (fst one) = [1]).
Proof. vm_compute. repeat split. Qed.

(** The promise at the head of the queue, rejected with [why]; nothing,
    when the queue is empty. *)
Lemma rejectCurrentCommand_spec (why : Reason) (r : PowerShellRunner) (w : World) :
  let st' := rejectCurrentCommand why (r, w) in
  process (fst st') = process r
  /\ isDisposed (fst st') = isDisposed r
  /\ pendingCallbacks (fst st') = tl (pendingCallbacks r)
  /\ spawned (snd st') = spawned w
  /\ settled (snd st')
     = settled w ++ match pendingCallbacks r with
                    | [] => []
                    | oldest :: _ => [(oldest, Rejected why)]
                    end.
Proof.
  unfold rejectCurrentCommand.
  destruct (pendingCallbacks r) as [|oldest rest] eqn:E; cbn.
  - rewrite E, app_nil_r. repeat split.
  - repeat split.
Qed.

(** C8.  An ['error'] event and an ['exit'] event each reject the oldest
    pending promise, if there is one, with the cause ([err], or the exit
    code), and neither starts a process; the exit also clears the process
    field.  On a runner that is not disposed and has no process, [invoke]
    starts one (when the interpreter can be started), queues its promise
    and writes the command to the new process; and if no older request is
    pending, a chunk in which the sentinel first occurs right after [out]
    then resolves that promise with [out], trimmed. *)
Theorem crash_and_lazy_respawn (r : PowerShellRunner) (w : World) :
  (forall message,
      let st' := onError message (r, w) in
      process (fst st') = process r
      /\ spawned (snd st') = spawned w
      /\ pendingCallbacks (fst st') = tl (pendingCallbacks r)
      /\ settled (snd st')
         = settled w ++ match pendingCallbacks r with
                        | [] => []
                        | oldest :: _ =>
                            [(oldest, Rejected (ProcessError message))]
                        end)
  /\ (forall code,
        let st' := onExit code (r, w) in
        process (fst st') = None
        /\ isDisposed (fst st') = isDisposed r
        /\ spawned (snd st') = spawned w
        /\ pendingCallbacks (fst st') = tl (pendingCallbacks r)
        /\ settled (snd st')
           = settled w ++ match pendingCallbacks r with
                          | [] => []
                          | oldest :: _ =>
                              [(oldest, Rejected (ExitedUnexpectedly code))]
                          end)
  /\ (isDisposed r = false ->
      process r = None ->
      forall command,
        let p := fst (invoke command SpawnPid true (r, w)) in
        let st' := snd (invoke command SpawnPid true (r, w)) in
        p = promises w
        /\ process (fst st') = Some (spawned w)
        /\ spawned (snd st') = S (spawned w)
        /\ pendingCallbacks (fst st') = pendingCallbacks r ++ [p]
        /\ written (snd st')
           = written w ++ [(spawned w, fullCommand command ++ [10%N])]
        /\ settled (snd st') = settled w
        /\ (pendingCallbacks r = [] ->
            forall out after,
              includes END_OF_COMMAND (out ++ removelast END_OF_COMMAND) = false ->
              settled (snd (onStdoutData (out ++ END_OF_COMMAND ++ after) st'))
              = settled w ++ [(p, Resolved (trim out))])).
Proof.
  split; [|split].
  - intros message st'. subst st'. unfold onError.
    destruct (rejectCurrentCommand_spec (ProcessError message) r w)
      as (H1 & _ & H3 & H4 & H5).
    auto.
  - intros code st'. subst st'. unfold onExit.
    destruct (rejectCurrentCommand_spec (ExitedUnexpectedly code)
                                        (set_process None r) w)
      as (H1 & H2 & H3 & H4 & H5).
    auto.
  - intros Hd Hp command p st'. subst p st'.
    assert (Hinv : invoke command SpawnPid true (r, w)
                   = (promises w,
                      (mkRunner (Some (spawned w)) false
                                (pendingCallbacks r ++ [promises w]) [] [],
                       mkWorld (settled w) (S (spawned w)) (killed w)
                               (written w
                                ++ [(spawned w, fullCommand command ++ [10%N])])
                               (S (promises w))))).
    { unfold invoke, new_promise, startProcess, new_child.
      rewrite Hd, Hp. cbn.
      unfold set_currentError, set_currentData, set_pendingCallbacks,
        set_process, write.
      cbn. rewrite Hd. reflexivity. }
    rewrite Hinv. cbn [fst snd process spawned pendingCallbacks written settled].
    repeat (split; [reflexivity|]).
    intros Hq out after Hfirst.
    rewrite onStdoutData_first by exact Hfirst.
    cbv zeta. unfold resolveCurrentCommand.
    cbn [set_currentData pendingCallbacks currentError currentData process
         isDisposed].
    rewrite Hq. cbn [app truthy andb set_pendingCallbacks fst snd].
    destruct (_ && _); reflexivity.
Qed.

(** A runner whose process exited while a command was pending: the
    promise of that command is rejected, and the next [invoke] starts a
    second process and is answered. *)
Lemma crash_and_lazy_respawn_witness :
  let crashed := run started [Invoke (lit "first") SpawnPid true;
                              ProcExit (Some 1%Z)] in
  let again := snd (invoke (lit "second") SpawnPid true crashed) in
  (isDisposed (fst crashed) = false
   /\ process (fst crashed) = None
   /\ pendingCallbacks (fst crashed) = []
   /\ settled (snd crashed)
      = [(0, Rejected (ExitedUnexpectedly (Some 1%Z)))])
  /\ process (fst again) = Some 1
  /\ settled
       (snd (onStdoutData (lit "done" ++ END_OF_COMMAND ++ [10%N]) again))
     = [(0, Rejected (ExitedUnexpectedly (Some 1%Z)));
        (1, Resolved (lit "done"))].
Proof.
  intros crashed again.
  assert (Hd : isDisposed (fst crashed) = false) by reflexivity.
  assert (Hp : process (fst crashed) = None) by reflexivity.
  assert (Hq : pendingCallbacks (fst crashed) = []) by reflexivity.
  split; [repeat split; reflexivity|].
  destruct (crash_and_lazy_respawn (fst crashed) (snd crashed))
    as (_ & _ & H).
  destruct (H Hd Hp (lit "second")) as (_ & H2 & _ & _ & _ & _ & H7).
  split; [exact H2|].
  exact (H7 Hq (lit "done") [10%N] eq_refl).
Defined.

End RunnerFacts.

(** ** extension.ts: the node locator *)

Section LocatorFacts.

Import Locator.


Lemma containsPosition_iff (node : PowerShellAstNode.t) (line column : Z) :
  containsPosition node line column = true
  <-> ((PowerShellAstNode.startLine node < line \/ (PowerShellAstNode.startLine node = line /\ PowerShellAstNode.startColumn node <= column))
       /\ (PowerShellAstNode.endLine node > line \/ (PowerShellAstNode.endLine node = line /\ PowerShellAstNode.endColumn node >= column)))%Z.
Proof.
  unfold containsPosition, startsBefore, endsAfter.
  destruct (PowerShellAstNode.startLine node <? line)%Z eqn:E1,
           (PowerShellAstNode.startLine node =? line)%Z eqn:E2,
           (PowerShellAstNode.startColumn node <=? column)%Z eqn:E3,
           (PowerShellAstNode.endLine node >? line)%Z eqn:E4,
           (PowerShellAstNode.endLine node =? line)%Z eqn:E5,
           (PowerShellAstNode.endColumn node >=? column)%Z eqn:E6;
    cbn; split; intros H; try reflexivity; try discriminate; lia.
Qed.

Lemma visit_contains (line column : Z) (found : option PowerShellAstNode.t)
      (node : PowerShellAstNode.t) :
  visit line column found node
  = if containsPosition node line column
    then match found with
         | None => Some node
         | Some f => if (PowerShellAstNode.textLength node <=? PowerShellAstNode.textLength f)%Z then Some node else found
         end
    else found.
Proof.
  unfold visit, containsPosition.
  destruct (startsBefore node line column), (endsAfter node line column);
    reflexivity.
Qed.

Lemma visit_smallest (line column : Z) (seen : list PowerShellAstNode.t)
      (found : option PowerShellAstNode.t) (node : PowerShellAstNode.t) :
  smallest_of line column seen found ->
  smallest_of line column (seen ++ [node]) (visit line column found node).
Proof.
  intros Inv. rewrite visit_contains.
  destruct (containsPosition node line column) eqn:C.
  - destruct found as [f|]; cbn in Inv.
    + destruct Inv as (Hin & Hc & Hmin).
      destruct (PowerShellAstNode.textLength node <=? PowerShellAstNode.textLength f)%Z eqn:E; cbn.
      * apply Z.leb_le in E. split; [apply in_or_app; right; now left|].
        split; [exact C|].
        intros n Hn Hcn. apply in_app_or in Hn as [Hn|[<-|[]]]; [|lia].
        specialize (Hmin n Hn Hcn). lia.
      * apply Z.leb_gt in E. split; [apply in_or_app; now left|].
        split; [exact Hc|].
        intros n Hn Hcn. apply in_app_or in Hn as [Hn|[<-|[]]]; [|lia].
        now apply Hmin.
    + cbn. split; [apply in_or_app; right; now left|].
      split; [exact C|].
      intros n Hn Hcn. apply in_app_or in Hn as [Hn|[<-|[]]]; [|lia].
      rewrite (Inv n Hn) in Hcn. discriminate.
  - destruct found as [f|]; cbn in *.
    + destruct Inv as (Hin & Hc & Hmin).
      split; [apply in_or_app; now left|]. split; [exact Hc|].
      intros n Hn Hcn. apply in_app_or in Hn as [Hn|[<-|[]]];
        [now apply Hmin | congruence].
    + intros n Hn. apply in_app_or in Hn as [Hn|[<-|[]]];
        [now apply Inv | exact C].
Qed.

Lemma scan_smallest (line column : Z) (values seen : list PowerShellAstNode.t)
      (found : option PowerShellAstNode.t) :
  smallest_of line column seen found ->
  smallest_of line column (seen ++ values)
              (fold_left (visit line column) values found).
Proof.
  revert seen found. induction values as [|node values IH]; intros seen found Inv.
  - now rewrite app_nil_r.
  - cbn [fold_left].
    replace (seen ++ node :: values) with ((seen ++ [node]) ++ values)
      by (now rewrite <- app_assoc).
    apply IH, visit_smallest, Inv.
Qed.

(** C5.  A node counts as containing a position exactly when it starts
    at or before it and ends at or after it, by line and then by column;
    so the position of a node's end is enclosed whenever the node starts
    at or before it.  The locator returns a node of the index that
    contains the position and whose [textLength] is minimal among the
    nodes that contain it, and returns none exactly when no node of the
    index contains the position. *)
Theorem node_locator_correct (values : list PowerShellAstNode.t) (line column : Z) :
  (forall node,
      containsPosition node line column = true
      <-> ((PowerShellAstNode.startLine node < line \/ (PowerShellAstNode.startLine node = line /\ PowerShellAstNode.startColumn node <= column))
           /\ (PowerShellAstNode.endLine node > line \/ (PowerShellAstNode.endLine node = line /\ PowerShellAstNode.endColumn node >= column)))%Z)
  /\ (forall node,
        containsPosition node (PowerShellAstNode.endLine node) (PowerShellAstNode.endColumn node)
        = startsBefore node (PowerShellAstNode.endLine node) (PowerShellAstNode.endColumn node))
  /\ match locate values line column with
     | Some found =>
         In found values
         /\ containsPosition found line column = true
         /\ forall node, In node values ->
                         containsPosition node line column = true ->
                         (PowerShellAstNode.textLength found <= PowerShellAstNode.textLength node)%Z
     | None =>
         forall node, In node values ->
                      containsPosition node line column = false
     end.
Proof.
  split; [|split].
  - intros node. apply containsPosition_iff.
  - intros node. unfold containsPosition, endsAfter.
    rewrite Z.eqb_refl.
    replace (PowerShellAstNode.endColumn node >=? PowerShellAstNode.endColumn node)%Z with true
      by (symmetry; apply Z.geb_le; lia).
    rewrite orb_true_r. now destruct (startsBefore _ _ _).
  - apply (scan_smallest line column values [] None). now intros node [].
Qed.

(** Inside three nested nodes the innermost is found, in whatever order
    the index holds them, also at the last column of the innermost; outside
    every node nothing is found. *)
Example locate_nested :
  locate [outer; middle; inner] 3 5 = Some inner
  /\ locate [inner; outer; middle] 3 5 = Some inner
  /\ locate [outer; middle; inner] 3 9 = Some inner
  /\ locate [outer; middle; inner] 3 10 = Some middle
  /\ locate [outer; middle; inner] 11 1 = None.
Proof. repeat split. Qed.

End LocatorFacts.

(** ** extension.ts: analyzeContent *)

Section AnalyzerFacts.

Import JsString Analyzer.

Lemma toString_Error (prefix rest : jsstring) :
  prefix <> [] ->
  toString (Error (prefix ++ rest)) = lit "Error: " ++ prefix ++ rest.
Proof.
  intros H. destruct prefix as [|c prefix]; [congruence|]. reflexivity.
Qed.

Lemma includes_suffix (p a : jsstring) : includes p (a ++ p) = true.
Proof. rewrite <- (app_nil_r p) at 2. apply includes_app. Qed.

(** The one message [analyzeContent] shows when its body throws. *)
Lemma analyzeContent_caught (JSON_parse : jsstring -> Completion AstData)
      (executed : Completion jsstring) :
  match completion (analyzeContent JSON_parse executed) with
  | inl _ => True
  | inr _ => False
  end.
Proof.
  unfold analyzeContent.
  destruct (bind executed _); exact I.
Qed.

(** C9, as the code has it.  [analyzeContent] never throws or rejects.
    When the parser script reports total failure, by a non-zero exit code
    or by a document [{ error: true, message, type }], the caller gets an
    empty list of nodes as a normal result, and one error message is shown:
    it contains the script's standard output in the first case and the
    [message] member in the second. *)
Theorem total_parse_failure_reported
        (JSON_parse : jsstring -> Completion AstData)
        (executed : Completion jsstring) :
  (exists mappedData,
      completion (analyzeContent JSON_parse executed) = ret mappedData)
  /\ (forall code stdout stderr,
        code <> Some 0%Z ->
        executed = executePowerShell_onClose code stdout stderr ->
        completion (analyzeContent JSON_parse executed) = ret ([], [])
        /\ exists text,
            shown (analyzeContent JSON_parse executed) = [text]
            /\ includes stdout text = true)
  /\ (forall result message type,
        executed = ret result ->
        trim result <> [] ->
        JSON_parse result = ret (AstError message type) ->
        completion (analyzeContent JSON_parse executed) = ret ([], [])
        /\ exists text,
            shown (analyzeContent JSON_parse executed) = [text]
            /\ includes message text = true).
Proof.
  split; [|split].
  - pose proof (analyzeContent_caught JSON_parse executed) as H.
    destruct (completion (analyzeContent JSON_parse executed)) as [v|e];
      [now exists v | contradiction].
  - intros code stdout stderr Hcode ->.
    assert (Hthrow : executePowerShell_onClose code stdout stderr
                     = throw (Error (lit "PowerShell execution failed (exit code "
                                     ++ exitCodeText code
                                     ++ lit "). STDERR: " ++ stderr
                                     ++ lit ". STDOUT: " ++ stdout))).
    { unfold executePowerShell_onClose.
      destruct code as [[| |]|]; try reflexivity. congruence. }
    unfold analyzeContent. rewrite Hthrow. cbn [bind throw completion shown].
    split; [reflexivity|].
    eexists. split; [reflexivity|].
    rewrite toString_Error by discriminate.
    rewrite !app_assoc. apply includes_suffix.
  - intros result message type -> Hnb Hparse.
    unfold analyzeContent. cbn [bind ret].
    rewrite truthy_trim. apply isBlank_false in Hnb. rewrite Hnb.
    cbn [negb]. rewrite Hparse.
    cbn [bind ret hasError try_catch throw messageText completion shown].
    split; [reflexivity|].
    eexists. split; [reflexivity|].
    rewrite !toString_Error by discriminate.
    rewrite <- !app_assoc.
    rewrite (app_assoc (lit "Failed to analyze PowerShell AST: ")).
    rewrite (app_assoc _ (lit "JSON parsing failed: ")).
    rewrite (app_assoc _ (lit "Error: ")).
    rewrite (app_assoc _ (lit "PowerShell parsing error: ")).
    apply includes_app.
Qed.

(** The report, decoded, is shown and an empty list returned. *)
Lemma total_parse_failure_reported_witness :
  let executed := ret failureReport in
  trim failureReport <> []
  /\ completion (analyzeContent decodeFailure executed) = ret ([], [])
  /\ exists text,
      shown (analyzeContent decodeFailure executed) = [text]
      /\ includes (lit "boom") text = true.
Proof.
  intros executed.
  assert (Hnb : trim failureReport <> []) by (vm_compute; discriminate).
  split; [exact Hnb|].
  destruct (total_parse_failure_reported decodeFailure executed) as (_ & _ & H).
  exact (H failureReport (lit "boom") (lit "ParseError") eq_refl Hnb eq_refl).
Defined.

(** C9 fails as stated: with the report on standard output, whether the
    interpreter exits with code 1 or with code 0, the promise of
    [analyzeContent] is fulfilled with an empty list, not rejected. *)
Lemma total_parse_failure_counterexample :
  completion (analyzeContent decodeFailure
                (executePowerShell_onClose (Some 1%Z) failureReport []))
  = ret ([], [])
  /\ completion (analyzeContent decodeFailure
                   (executePowerShell_onClose (Some 0%Z) failureReport []))
     = ret ([], []).
Proof. split; reflexivity. Qed.

End AnalyzerFacts.

(** ** extension.ts: the tree builder *)

Section MapFacts.

Context {V : Type}.

Lemma get_app_absent (k : Z) (m m' : JsMap.t V) :
  JsMap.get k m = None -> JsMap.get k (m ++ m') = JsMap.get k m'.
Proof.
  induction m as [|[k' v'] m IH]; cbn; [reflexivity|].
  destruct (k =? k')%Z; [discriminate | exact IH].
Qed.

Lemma set_absent (k : Z) (v : V) (m : JsMap.t V) :
  JsMap.get k m = None -> JsMap.set k v m = m ++ [(k, v)].
Proof.
  induction m as [|[k' v'] m IH]; cbn; [reflexivity|].
  destruct (k =? k')%Z; [discriminate|].
  intros H. now rewrite IH.
Qed.

Lemma get_In (k : Z) (v : V) (m : JsMap.t V) :
  JsMap.get k m = Some v -> In (k, v) m.
Proof.
  induction m as [|[k' v'] m IH]; cbn; [discriminate|].
  destruct (k =? k')%Z eqn:E.
  - apply Z.eqb_eq in E. intros [= ->]. left. now subst.
  - intros H. right. now apply IH.
Qed.

End MapFacts.

Section BuilderFacts.

Import TreeBuilder.

Lemma mem_In (k : Z) (l : list Z) : mem k l = true <-> In k l.
Proof.
  unfold mem. rewrite existsb_exists. split.
  - intros (x & Hx & E). apply Z.eqb_eq in E. now subst.
  - intros H. exists k. split; [exact H | apply Z.eqb_refl].
Qed.

Lemma distinct_NoDup (l : list Z) : distinct l = true <-> NoDup l.
Proof.
  induction l as [|k l IH]; cbn.
  - split; [constructor | reflexivity].
  - rewrite andb_true_iff, negb_true_iff, IH, NoDup_cons_iff.
    rewrite <- mem_In. destruct (mem k l); intuition congruence.
Qed.

(** *** The recorded parent *)

Lemma parentOf_In (L : list FlatAstNode.t) (k : Z) (x : option Z) :
  parentOf L k = Some x -> In k (hashes L).
Proof.
  induction L as [|n L IH]; cbn; [discriminate|].
  destruct (k =? FlatAstNode.hashCode n)%Z eqn:E.
  - apply Z.eqb_eq in E. now left.
  - intros H. right. now apply IH.
Qed.

Lemma parentOf_absent (L : list FlatAstNode.t) (k : Z) :
  ~ In k (hashes L) -> parentOf L k = None.
Proof.
  intros H. destruct (parentOf L k) eqn:E; [|reflexivity].
  exfalso. eapply H, parentOf_In, E.
Qed.

Lemma parentOf_node (L : list FlatAstNode.t) (n : FlatAstNode.t) :
  NoDup (hashes L) -> In n L ->
  parentOf L (FlatAstNode.hashCode n) = Some (FlatAstNode.parentHashCode n).
Proof.
  induction L as [|m L IH]; cbn; [contradiction|].
  intros Hnd [->|Hin].
  - now rewrite Z.eqb_refl.
  - inversion Hnd as [|? ? Hm Hnd']; subst.
    destruct (FlatAstNode.hashCode n =? FlatAstNode.hashCode m)%Z eqn:E.
    + apply Z.eqb_eq in E. exfalso. apply Hm. rewrite <- E.
      now apply in_map.
    + now apply IH.
Qed.

Lemma hash_injective (L : list FlatAstNode.t) (n m : FlatAstNode.t) :
  NoDup (hashes L) -> In n L -> In m L ->
  FlatAstNode.hashCode n = FlatAstNode.hashCode m -> n = m.
Proof.
  induction L as [|x L IH]; cbn; [contradiction|].
  intros Hnd Hn Hm E. inversion Hnd as [|? ? Hx Hnd']; subst.
  destruct Hn as [->|Hn], Hm as [->|Hm]; try reflexivity.
  - exfalso. apply Hx. rewrite E. now apply in_map.
  - exfalso. apply Hx. rewrite <- E. now apply in_map.
  - now apply IH.
Qed.

(** *** The first pass *)

Lemma firstPass_from (L : list FlatAstNode.t) (acc : NodeMap) :
  NoDup (hashes L) ->
  (forall n, In n L -> JsMap.get (FlatAstNode.hashCode n) acc = None) ->
  fold_left
    (fun nodeMap flatNode =>
       JsMap.set (FlatAstNode.hashCode flatNode) (treeNode flatNode) nodeMap)
    L acc
  = acc ++ map (fun n => (FlatAstNode.hashCode n, treeNode n)) L.
Proof.
  revert acc. induction L as [|n L IH]; intros acc Hnd Hacc; cbn.
  - now rewrite app_nil_r.
  - inversion Hnd as [|? ? Hn Hnd']; subst.
    rewrite set_absent by (apply Hacc; now left).
    rewrite IH; [now rewrite <- app_assoc | exact Hnd' |].
    intros m Hm. rewrite get_app_absent by (apply Hacc; now right).
    cbn. destruct (FlatAstNode.hashCode m =? FlatAstNode.hashCode n)%Z eqn:E;
      [|reflexivity].
    apply Z.eqb_eq in E. exfalso. apply Hn. rewrite <- E. now apply in_map.
Qed.

Lemma firstPass_unique (L : list FlatAstNode.t) :
  NoDup (hashes L) -> firstPass L = linkedStore L [].
Proof.
  intros Hnd. unfold firstPass. rewrite firstPass_from; auto.
Qed.

(** *** The store between two turns of the second loop *)

Lemma keys_linkedStore (L : list FlatAstNode.t) (ks : list Z) :
  JsMap.keys (linkedStore L ks) = hashes L.
Proof.
  unfold JsMap.keys, linkedStore, hashes. rewrite map_map. reflexivity.
Qed.

Lemma get_entries {A} (key : A -> Z) (g : A -> PowerShellAstNode.t)
      (l : list A) (k : Z) :
  JsMap.get k (map (fun x => (key x, g x)) l)
  = option_map g (find (fun x => (k =? key x)%Z) l).
Proof.
  induction l as [|x l IH]; cbn; [reflexivity|].
  destruct (k =? key x)%Z; [reflexivity | exact IH].
Qed.

Lemma find_node (L : list FlatAstNode.t) (n : FlatAstNode.t) :
  NoDup (hashes L) -> In n L ->
  find (fun x => (FlatAstNode.hashCode n =? FlatAstNode.hashCode x)%Z) L = Some n.
Proof.
  intros Hnd Hin.
  destruct (find _ L) as [m|] eqn:E.
  - apply find_some in E as [Hm E]. apply Z.eqb_eq in E.
    f_equal. symmetry. now apply (hash_injective L).
  - exfalso. apply (find_none _ _ E) in Hin. now rewrite Z.eqb_refl in Hin.
Qed.

Lemma get_linkedStore (L : list FlatAstNode.t) (ks : list Z) (n : FlatAstNode.t) :
  NoDup (hashes L) -> In n L ->
  JsMap.get (FlatAstNode.hashCode n) (linkedStore L ks) = Some (linkedNode L ks n).
Proof.
  intros Hnd Hin. unfold linkedStore.
  now rewrite get_entries, find_node.
Qed.

Lemma get_linkedStore_absent (L : list FlatAstNode.t) (ks : list Z) (k : Z) :
  ~ In k (hashes L) -> JsMap.get k (linkedStore L ks) = None.
Proof.
  intros H. unfold linkedStore. rewrite get_entries.
  destruct (find _ L) as [m|] eqn:E; [|reflexivity].
  apply find_some in E as [Hm E]. apply Z.eqb_eq in E.
  exfalso. apply H. subst k. now apply in_map.
Qed.

Lemma In_linkedStore (L : list FlatAstNode.t) (ks : list Z) (k : Z)
      (node : PowerShellAstNode.t) :
  In (k, node) (linkedStore L ks) ->
  exists n, In n L /\ FlatAstNode.hashCode n = k /\ node = linkedNode L ks n.
Proof.
  unfold linkedStore. rewrite in_map_iff. intros (n & [= <- <-] & Hn).
  now exists n.
Qed.

Lemma set_entries (L : list FlatAstNode.t) (g : FlatAstNode.t -> PowerShellAstNode.t)
      (k : Z) (v : PowerShellAstNode.t) :
  NoDup (hashes L) -> In k (hashes L) ->
  JsMap.set k v (map (fun x => (FlatAstNode.hashCode x, g x)) L)
  = map (fun x => (FlatAstNode.hashCode x,
                   if (FlatAstNode.hashCode x =? k)%Z then v else g x)) L.
Proof.
  induction L as [|n L IH]; cbn; [contradiction|].
  intros Hnd Hin. inversion Hnd as [|? ? Hn Hnd']; subst.
  rewrite (Z.eqb_sym (FlatAstNode.hashCode n) k).
  destruct (k =? FlatAstNode.hashCode n)%Z eqn:E.
  - apply Z.eqb_eq in E. subst k. f_equal.
    apply map_ext_in. intros x Hx.
    destruct (FlatAstNode.hashCode x =? FlatAstNode.hashCode n)%Z eqn:E';
      [|reflexivity].
    apply Z.eqb_eq in E'. exfalso. apply Hn. rewrite <- E'. now apply in_map.
  - f_equal. apply IH; [exact Hnd'|].
    destruct Hin as [Hin|Hin]; [|exact Hin].
    apply Z.eqb_neq in E. congruence.
Qed.

Lemma childrenAmong_snoc (L : list FlatAstNode.t) (ks : list Z) (k p : Z) :
  childrenAmong L (ks ++ [k]) p
  = childrenAmong L ks p
    ++ match parentOf L k with
       | Some (Some ph) => if (ph =? p)%Z then [k] else []
       | _ => []
       end.
Proof.
  unfold childrenAmong. rewrite filter_app. cbn.
  destruct (parentOf L k) as [[ph|]|]; reflexivity.
Qed.

(** One turn of the second loop, at an entry of the map. *)
Lemma link_step (L : list FlatAstNode.t) (ks rs : list Z) (k : Z) :
  NoDup (hashes L) -> In k (hashes L) ->
  link (linkedStore L ks, rs) k
  = (linkedStore L (ks ++ [k]), rs ++ rootsAmong L [k]).
Proof.
  intros Hnd Hk.
  unfold hashes in Hk. apply in_map_iff in Hk as (n & <- & Hn).
  unfold link. rewrite (get_linkedStore L ks n Hnd Hn).
  change (PowerShellAstNode.parentHashCode (linkedNode L ks n))
    with (FlatAstNode.parentHashCode n).
  pose proof (parentOf_node L n Hnd Hn) as Hpar.
  unfold rootsAmong. cbn [filter]. rewrite Hpar.
  destruct (FlatAstNode.parentHashCode n) as [ph|] eqn:Ep.
  - rewrite app_nil_r.
    destruct (in_dec Z.eq_dec ph (hashes L)) as [Hph|Hph].
    + pose proof Hph as Hph'.
      unfold hashes in Hph'. apply in_map_iff in Hph' as (pn & <- & Hpn).
      rewrite (get_linkedStore L ks pn Hnd Hpn).
      f_equal. unfold linkedStore at 1.
      rewrite set_entries by assumption.
      apply map_ext_in. intros x Hx. f_equal.
      unfold linkedNode. rewrite childrenAmong_snoc, Hpar.
      rewrite (Z.eqb_sym (FlatAstNode.hashCode x)).
      destruct (FlatAstNode.hashCode pn =? FlatAstNode.hashCode x)%Z eqn:E.
      * apply Z.eqb_eq in E.
        rewrite (hash_injective L pn x Hnd Hpn Hx E). reflexivity.
      * now rewrite app_nil_r.
    + rewrite (get_linkedStore_absent L ks ph Hph).
      f_equal. apply map_ext_in. intros x Hx. f_equal.
      unfold linkedNode. rewrite childrenAmong_snoc, Hpar.
      destruct (ph =? FlatAstNode.hashCode x)%Z eqn:E;
        [|now rewrite app_nil_r].
      apply Z.eqb_eq in E. exfalso. apply Hph. subst ph. now apply in_map.
  - f_equal. apply map_ext_in. intros x Hx. f_equal.
    unfold linkedNode. rewrite childrenAmong_snoc, Hpar. now rewrite app_nil_r.
Qed.

Lemma link_all (L : list FlatAstNode.t) (ks2 ks1 rs : list Z) :
  NoDup (hashes L) -> incl ks2 (hashes L) ->
  fold_left link ks2 (linkedStore L ks1, rs)
  = (linkedStore L (ks1 ++ ks2), rs ++ rootsAmong L ks2).
Proof.
  intros Hnd. revert ks1 rs.
  induction ks2 as [|k ks2 IH]; intros ks1 rs Hincl; cbn [fold_left].
  - now rewrite !app_nil_r.
  - rewrite link_step by (auto; apply Hincl; now left).
    rewrite IH by (intros x Hx; apply Hincl; now right).
    replace ((ks1 ++ [k]) ++ ks2) with (ks1 ++ k :: ks2)
      by (now rewrite <- app_assoc).
    rewrite <- app_assoc. unfold rootsAmong. now rewrite <- filter_app.
Qed.

(** What the two passes leave, for a list with unique hashes: every node
    with the children that name it as parent, in the order of the list; and
    as roots the nodes without parent, in the order of the list. *)
Lemma build_spec (L : list FlatAstNode.t) :
  uniqueHashes L = true ->
  buildTreeFromFlatData L
  = (linkedStore L (hashes L), rootsAmong L (hashes L)).
Proof.
  intros Hu. apply distinct_NoDup in Hu.
  destruct L as [|n L]; [reflexivity|].
  unfold buildTreeFromFlatData, secondPass.
  rewrite firstPass_unique by exact Hu.
  rewrite keys_linkedStore.
  now rewrite link_all by (auto using incl_refl).
Qed.

(** *** Orphans *)

Lemma In_childrenAmong (L : list FlatAstNode.t) (ks : list Z) (p c : Z) :
  In c (childrenAmong L ks p) <-> In c ks /\ parentOf L c = Some (Some p).
Proof.
  unfold childrenAmong. rewrite filter_In.
  destruct (parentOf L c) as [[ph|]|]; try (intuition congruence).
  destruct (ph =? p)%Z eqn:E.
  - apply Z.eqb_eq in E. subst. intuition.
  - apply Z.eqb_neq in E. intuition congruence.
Qed.

Lemma In_rootsAmong (L : list FlatAstNode.t) (ks : list Z) (c : Z) :
  In c (rootsAmong L ks) <-> In c ks /\ parentOf L c = Some None.
Proof.
  unfold rootsAmong. rewrite filter_In.
  destruct (parentOf L c) as [[ph|]|]; intuition congruence.
Qed.


Lemma unlinked_linkedNode (L : list FlatAstNode.t) (ks : list Z) (n : FlatAstNode.t) :
  unlinked (linkedNode L ks n) = treeNode n.
Proof. reflexivity. Qed.



(** *** Depth and levels *)

Lemma depth_lt (L : list FlatAstNode.t) (f : nat) (k : Z) (d : nat) :
  depth f L k = Some d -> d < f.
Proof.
  revert k d. induction f as [|f IH]; intros k d; cbn; [discriminate|].
  destruct (parentOf L k) as [[ph|]|]; try discriminate.
  - destruct (depth f L ph) as [d'|] eqn:E; [|discriminate].
    intros [= <-]. apply IH in E. lia.
  - intros [= <-]. lia.
Qed.

Lemma depth_mono (L : list FlatAstNode.t) (f f' : nat) (k : Z) (d : nat) :
  depth f L k = Some d -> f <= f' -> depth f' L k = Some d.
Proof.
  revert f' k d. induction f as [|f IH]; intros f' k d; cbn; [discriminate|].
  intros H Hle. destruct f' as [|f']; [lia|]. cbn.
  destruct (parentOf L k) as [[ph|]|]; try discriminate; [|exact H].
  destruct (depth f L ph) as [d'|] eqn:E; [|discriminate].
  rewrite (IH f' ph d' E) by lia. exact H.
Qed.

Lemma NoDup_flat_map {A B} (g : A -> list B) (l : list A) :
  NoDup l ->
  (forall x, In x l -> NoDup (g x)) ->
  (forall x y b, In x l -> In y l -> In b (g x) -> In b (g y) -> x = y) ->
  NoDup (flat_map g l).
Proof.
  induction l as [|x l IH]; intros Hnd Hg Hdis; cbn; [constructor|].
  inversion Hnd as [|? ? Hx Hnd']; subst.
  apply NoDup_app.
  - apply Hg. now left.
  - apply IH; [exact Hnd' | intros; apply Hg; now right |].
    intros y z b Hy Hz. apply Hdis; now right.
  - intros b Hb Hb'. apply in_flat_map in Hb' as (y & Hy & Hby).
    assert (x = y) by (apply (Hdis x y b); auto; [now left | now right]).
    subst y. contradiction.
Qed.

Lemma flatKeys_step (kids : Z -> list Z) (f : nat) (ks : list Z) :
  Permutation (flat_map (flatKeys kids (S f)) ks)
              (ks ++ flat_map (flatKeys kids f) (flat_map kids ks)).
Proof.
  induction ks as [|k ks IH]; [constructor|].
  cbn [flat_map flatKeys app]. constructor.
  rewrite flat_map_app. rewrite IH. apply Permutation_app_swap_app.
Qed.

Section Acyclic.

Variable L : list FlatAstNode.t.
Hypothesis Hnd : NoDup (hashes L).
Hypothesis Hacyclic : acyclic L = true.

Let dep (k : Z) : option nat := depth (length L) L k.
Let kids (p : Z) : list Z := childrenAmong L (hashes L) p.

Lemma dep_defined (k : Z) : In k (hashes L) -> exists d, dep k = Some d.
Proof.
  intros Hk. unfold hashes in Hk. apply in_map_iff in Hk as (n & <- & Hn).
  unfold acyclic in Hacyclic. rewrite forallb_forall in Hacyclic.
  specialize (Hacyclic n Hn). unfold dep.
  destruct (depth _ L _) as [d|]; [now exists d | discriminate].
Qed.

Lemma dep_zero (k : Z) : dep k = Some 0 <-> parentOf L k = Some None.
Proof.
  unfold dep. split.
  - destruct (length L) as [|N]; cbn; [discriminate|].
    destruct (parentOf L k) as [[ph|]|]; try discriminate; [|reflexivity].
    destruct (depth N L ph); discriminate.
  - intros H. destruct L as [|n L']; [discriminate|].
    cbn [length depth]. now rewrite H.
Qed.

Lemma dep_succ (k : Z) (d : nat) :
  dep k = Some (S d) <->
  exists p, parentOf L k = Some (Some p) /\ dep p = Some d /\ In k (hashes L).
Proof.
  unfold dep. split.
  - intros H.
    assert (Hk : In k (hashes L)).
    { destruct (length L); cbn in H; [discriminate|].
      destruct (parentOf L k) eqn:E; [|discriminate].
      eapply parentOf_In, E. }
    destruct (length L) as [|N] eqn:EN; cbn in H; [discriminate|].
    destruct (parentOf L k) as [[ph|]|]; try discriminate.
    destruct (depth N L ph) as [d'|] eqn:E; [|discriminate].
    injection H as ->. exists ph. repeat split; [|exact Hk].
    apply (depth_mono L N); [exact E | lia].
  - intros (p & Hp & Hd & Hk).
    destruct (dep_defined k Hk) as [dk Hdk]. unfold dep in Hdk.
    rewrite Hdk. f_equal.
    destruct (length L) as [|N] eqn:EN; cbn in Hdk; [discriminate|].
    rewrite Hp in Hdk.
    destruct (depth N L p) as [d'|] eqn:E; [|discriminate].
    injection Hdk as <-. f_equal.
    assert (E' : depth (S N) L p = Some d')
      by (apply (depth_mono L N); [exact E | lia]).
    congruence.
Qed.

Lemma In_level (d : nat) (k : Z) :
  In k (level L d) <-> In k (hashes L) /\ dep k = Some d.
Proof.
  unfold level, dep. rewrite filter_In.
  destruct (depth _ L k) as [d'|].
  - destruct (Nat.eqb d' d) eqn:E.
    + apply Nat.eqb_eq in E. subst. intuition.
    + apply Nat.eqb_neq in E. intuition congruence.
  - intuition congruence.
Qed.

Lemma NoDup_level (d : nat) : NoDup (level L d).
Proof. apply NoDup_filter, Hnd. Qed.

Lemma roots_level : rootsAmong L (hashes L) = level L 0.
Proof.
  unfold rootsAmong, level. apply filter_ext. intros k.
  fold (dep k).
  destruct (dep k) as [[|d]|] eqn:E.
  - apply dep_zero in E. now rewrite E.
  - apply dep_succ in E as (p & -> & _). reflexivity.
  - destruct (parentOf L k) as [[ph|]|] eqn:Ep; try reflexivity.
    apply dep_zero in Ep. congruence.
Qed.

(** The children of the nodes at one depth are the nodes at the next. *)
Lemma kids_level (d : nat) :
  Permutation (flat_map kids (level L d)) (level L (S d)).
Proof.
  apply NoDup_Permutation.
  - apply NoDup_flat_map.
    + apply NoDup_level.
    + intros p _. apply NoDup_filter, Hnd.
    + intros p q c _ _ Hp Hq.
      apply In_childrenAmong in Hp as [_ Hp].
      apply In_childrenAmong in Hq as [_ Hq]. congruence.
  - apply NoDup_level.
  - intros c. rewrite in_flat_map, In_level. split.
    + intros (p & Hp & Hc). apply In_level in Hp as [_ Hp].
      apply In_childrenAmong in Hc as [Hc Hpar].
      split; [exact Hc|]. apply dep_succ. now exists p.
    + intros [Hc Hd]. apply dep_succ in Hd as (p & Hpar & Hp & _).
      exists p. split.
      * apply In_level. split; [|exact Hp].
        unfold dep in Hp. destruct (length L); cbn in Hp; [discriminate|].
        destruct (parentOf L p) eqn:E; [|discriminate].
        eapply parentOf_In, E.
      * now apply In_childrenAmong.
Qed.

Lemma flatKeys_levels (f d : nat) :
  Permutation (flat_map (flatKeys kids f) (level L d))
              (flat_map (level L) (seq d f)).
Proof.
  revert d. induction f as [|f IH]; intros d.
  - cbn. induction (level L d); [constructor | exact IHl].
  - rewrite flatKeys_step. cbn [seq flat_map].
    apply Permutation_app_head.
    rewrite (Permutation_flat_map _ (kids_level d)). apply IH.
Qed.

Lemma levels_all (f : nat) :
  length L <= f -> Permutation (flat_map (level L) (seq 0 f)) (hashes L).
Proof.
  intros Hf. apply NoDup_Permutation.
  - apply NoDup_flat_map.
    + apply seq_NoDup.
    + intros d _. apply NoDup_level.
    + intros d d' k _ _ Hd Hd'.
      apply In_level in Hd as [_ Hd]. apply In_level in Hd' as [_ Hd'].
      congruence.
  - exact Hnd.
  - intros k. rewrite in_flat_map. split.
    + intros (d & _ & Hk). now apply In_level in Hk.
    + intros Hk. destruct (dep_defined k Hk) as [d Hd].
      exists d. split; [|now apply In_level].
      apply in_seq. apply depth_lt in Hd. lia.
Qed.

(** The references met from the roots downwards are the hashes of the
    list, each once. *)
Lemma flatKeys_roots (f : nat) :
  length L <= f ->
  Permutation (flat_map (flatKeys kids f) (rootsAmong L (hashes L))) (hashes L).
Proof.
  intros Hf. rewrite roots_level, flatKeys_levels. now apply levels_all.
Qed.

(** *** Reading the forest back *)

Let store : NodeMap := linkedStore L (hashes L).

(** What a tree read at reference [k] with fuel [f] is. *)
Let reads (f : nat) (k : Z) (t : Tree) : Prop :=
  map PowerShellAstNode.hashCode (preorder t) = flatKeys kids f k
  /\ Forall (fun node => exists n, In n L /\ node = linkedNode L (hashes L) n)
            (preorder t)
  /\ JsMap.get k store = Some (root_of t).

Lemma sequence_map {A B} (g : A -> option B) (P : A -> B -> Prop) (l : list A) :
  (forall x, In x l -> exists t, g x = Some t /\ P x t) ->
  exists ts, sequence (map g l) = Some ts /\ Forall2 P l ts.
Proof.
  induction l as [|x l IH]; intros H; cbn.
  - exists []. split; [reflexivity | constructor].
  - destruct (H x (or_introl eq_refl)) as (t & -> & Ht).
    destruct IH as (ts & -> & Hts); [intros y Hy; apply H; now right|].
    exists (t :: ts). split; [reflexivity | now constructor].
Qed.

Lemma reads_flatten (f : nat) (ks : list Z) (ts : list Tree) :
  Forall2 (reads f) ks ts ->
  map PowerShellAstNode.hashCode (flatten ts) = flat_map (flatKeys kids f) ks
  /\ Forall (fun node => exists n, In n L /\ node = linkedNode L (hashes L) n)
            (flatten ts).
Proof.
  unfold flatten. induction 1 as [|k t ks ts (Hk & Hall & _) _ [IH1 IH2]]; cbn.
  - split; [reflexivity | constructor].
  - split.
    + now rewrite map_app, Hk, IH1.
    + apply Forall_app. now split.
Qed.

Lemma readTree_ok (f : nat) (k : Z) (d : nat) :
  In k (hashes L) -> dep k = Some d -> length L <= d + f ->
  exists t, readTree f store k = Some t /\ reads f k t.
Proof.
  revert k d. induction f as [|f IH]; intros k d Hk Hd Hlen.
  - apply depth_lt in Hd. lia.
  - pose proof Hk as Hk'. unfold hashes in Hk'.
    apply in_map_iff in Hk' as (n & <- & Hn).
    cbn [readTree]. unfold store at 1.
    rewrite (get_linkedStore L (hashes L) n Hnd Hn).
    change (PowerShellAstNode.children (linkedNode L (hashes L) n))
      with (kids (FlatAstNode.hashCode n)).
    destruct (sequence_map (readTree f store) (reads f)
                           (kids (FlatAstNode.hashCode n)))
      as (ts & -> & Hts).
    { intros c Hc. apply In_childrenAmong in Hc as [Hc Hpar].
      apply (IH c (S d)); [exact Hc | | lia].
      apply dep_succ. now exists (FlatAstNode.hashCode n). }
    eexists. split; [reflexivity|].
    destruct (reads_flatten f _ _ Hts) as [Hkeys Hall].
    unfold reads. cbn [preorder root_of map]. repeat split.
    + cbn [flatKeys].
      change (PowerShellAstNode.hashCode (linkedNode L (hashes L) n))
        with (FlatAstNode.hashCode n).
      apply f_equal. exact Hkeys.
    + constructor; [now exists n | exact Hall].
    + unfold store. now apply get_linkedStore.
Qed.

Lemma roots_of_list :
  rootsAmong L (hashes L) = hashes (filter isRoot L).
Proof.
  unfold rootsAmong, hashes. rewrite filter_map_swap. f_equal.
  apply filter_ext_in. intros n Hn.
  rewrite (parentOf_node L n Hnd Hn). unfold isRoot.
  now destruct (FlatAstNode.parentHashCode n).
Qed.

Lemma reads_roots (f : nat) (R : list FlatAstNode.t) (ts : list Tree) :
  incl R L ->
  Forall2 (reads f) (hashes R) ts ->
  map (fun t => unlinked (root_of t)) ts = map treeNode R.
Proof.
  revert ts. induction R as [|n R IH]; intros ts Hincl H; cbn in H.
  - inversion H. reflexivity.
  - inversion H as [|? t ? ts' (_ & _ & Hget) Hrest]; subst. cbn.
    unfold store in Hget.
    rewrite (get_linkedStore L (hashes L) n Hnd) in Hget
      by (apply Hincl; now left).
    injection Hget as <-. f_equal.
    apply IH; [|exact Hrest]. intros x Hx. apply Hincl. now right.
Qed.

(** The forest the builder returns for a list without cycles. *)
Lemma built_forest_spec (fuel : nat) :
  length L <= fuel ->
  exists forest,
    builtForest fuel L = Some forest
    /\ Permutation (map unlinked (flatten forest)) (map treeNode L)
    /\ map (fun t => unlinked (root_of t)) forest
       = map treeNode (filter isRoot L).
Proof.
  intros Hfuel. unfold builtForest.
  rewrite build_spec by (now apply distinct_NoDup).
  unfold readForest. fold store.
  destruct (sequence_map (readTree fuel store) (reads fuel)
                         (rootsAmong L (hashes L)))
    as (forest & -> & Hforest).
  { intros k Hk. apply In_rootsAmong in Hk as [Hk Hpar].
    apply (readTree_ok fuel k 0); [exact Hk | now apply dep_zero | lia]. }
  exists forest. split; [reflexivity|].
  destruct (reads_flatten fuel _ _ Hforest) as [Hkeys Hall].
  pose proof (flatKeys_roots fuel Hfuel) as Hperm. fold kids in Hperm.
  rewrite <- Hkeys in Hperm.
  rewrite Forall_forall in Hall.
  split.
  - apply NoDup_Permutation.
    + apply (NoDup_map_inv PowerShellAstNode.hashCode).
      rewrite map_map.
      apply (Permutation_NoDup (Permutation_sym Hperm)), Hnd.
    + apply (NoDup_map_inv PowerShellAstNode.hashCode).
      now rewrite map_map.
    + intros node. rewrite !in_map_iff. split.
      * intros (x & <- & Hx). destruct (Hall x Hx) as (n & Hn & ->).
        now exists n.
      * intros (n & <- & Hn).
        assert (Hin : In (FlatAstNode.hashCode n)
                         (map PowerShellAstNode.hashCode (flatten forest))).
        { apply (Permutation_in _ (Permutation_sym Hperm)). now apply in_map. }
        apply in_map_iff in Hin as (x & Hx & Hxin).
        exists x. split; [|exact Hxin].
        destruct (Hall x Hxin) as (m & Hm & ->).
        rewrite unlinked_linkedNode. apply f_equal.
        now apply (hash_injective L).
  - apply (reads_roots fuel).
    + intros n Hn. now apply filter_In in Hn.
    + now rewrite <- roots_of_list.
Qed.

End Acyclic.

(** C3, as the code has it.  For a list of nodes with unique identity
    hashes in which every parent hash is some node's identity hash and the
    parent links have no cycle, the builder returns a forest (read back with
    fuel for as many levels as the list has nodes) that has as many nodes as
    the list, and whose roots are the nodes of the list without parent, in
    the order of the list. *)
Theorem forest_of_consistent_list (L : list FlatAstNode.t) (fuel : nat) :
  uniqueHashes L = true ->
  consistent L = true ->
  acyclic L = true ->
  length L <= fuel ->
  exists forest,
    builtForest fuel L = Some forest
    /\ length (flatten forest) = length L
    /\ map (fun t => unlinked (root_of t)) forest
       = map treeNode (filter isRoot L).
Proof.
  intros Hu _ Ha Hfuel. apply distinct_NoDup in Hu.
  destruct (built_forest_spec L Hu Ha fuel Hfuel) as (forest & Hb & Hperm & Hr).
  exists forest. split; [exact Hb|]. split; [|exact Hr].
  apply Permutation_length in Hperm. now rewrite !length_map in Hperm.
Qed.

(** The tree of four nodes. *)
Lemma forest_of_consistent_list_witness :
  uniqueHashes smallTree = true
  /\ consistent smallTree = true
  /\ acyclic smallTree = true
  /\ exists forest,
      builtForest 4 smallTree = Some forest
      /\ length (flatten forest) = 4
      /\ map (fun t => unlinked (root_of t)) forest = [treeNode (bare 10 None)].
Proof.
  repeat (split; [reflexivity|]).
  apply (forest_of_consistent_list smallTree 4);
    [reflexivity | reflexivity | reflexivity | cbn; lia].
Defined.

(** C3 fails as stated: in a list of two nodes that are each other's
    parent, the hashes are unique and both parent hashes resolve, but no node
    is a root and the forest returned is empty. *)
Lemma forest_of_consistent_list_counterexample :
  uniqueHashes cyclicPair = true
  /\ consistent cyclicPair = true
  /\ snd (buildTreeFromFlatData cyclicPair) = []
  /\ builtForest 2 cyclicPair = Some []
  /\ length (flatten []) <> length cyclicPair.
Proof. repeat (split; [reflexivity|]). discriminate. Qed.

(** C6, as the code has it.  For a list of nodes with unique identity
    hashes in which every parent hash is some node's identity hash and the
    parent links have no cycle, the nodes of the forest the builder returns,
    flattened in pre-order and taken without their children, are the tree
    nodes the builder made of the nodes of the list, each once. *)
Theorem build_flatten_round_trip (L : list FlatAstNode.t) (fuel : nat) :
  uniqueHashes L = true ->
  consistent L = true ->
  acyclic L = true ->
  length L <= fuel ->
  exists forest,
    builtForest fuel L = Some forest
    /\ Permutation (map unlinked (flatten forest)) (map treeNode L).
Proof.
  intros Hu _ Ha Hfuel. apply distinct_NoDup in Hu.
  destruct (built_forest_spec L Hu Ha fuel Hfuel) as (forest & Hb & Hperm & _).
  now exists forest.
Qed.

Lemma build_flatten_round_trip_witness :
  uniqueHashes smallTree = true
  /\ consistent smallTree = true
  /\ acyclic smallTree = true
  /\ exists forest,
      builtForest 4 smallTree = Some forest
      /\ Permutation (map unlinked (flatten forest)) (map treeNode smallTree).
Proof.
  repeat (split; [reflexivity|]).
  apply (build_flatten_round_trip smallTree 4);
    [reflexivity | reflexivity | reflexivity | cbn; lia].
Defined.

(** C6 fails as stated: in a list of a root and a node that is its own
    parent, the hashes are unique and both parent hashes resolve, but the
    flattened forest holds the root only, with whatever fuel it is read. *)
Lemma build_flatten_round_trip_counterexample :
  uniqueHashes selfParent = true
  /\ consistent selfParent = true
  /\ hashes selfParent = [1%Z; 2%Z]
  /\ option_map (fun forest => map PowerShellAstNode.hashCode (flatten forest))
                (builtForest 2 selfParent)
     = Some [1%Z]
  /\ option_map (fun forest => map PowerShellAstNode.hashCode (flatten forest))
                (builtForest 10 selfParent)
     = Some [1%Z].
Proof. repeat split. Qed.

End BuilderFacts.


(** ** PowerShellRunner.ts: runs of calls and events *)

Section RunnerRuns.

Import JsString Runner RunnerTrace.

Lemma ids_settle (r : PowerShellRunner) (w : World) (queue : list nat)
      (p : nat) (o : Settlement) :
  ids (set_pendingCallbacks queue r, settle p o w)
  = (queue, map fst (settled w) ++ [p], promises w).
Proof. unfold ids. cbn. now rewrite map_app. Qed.

Lemma resolveCurrentCommand_moved (st : State) :
  moved (ids st) (ids (resolveCurrentCommand st)).
Proof.
  destruct st as [r w]. unfold resolveCurrentCommand.
  destruct (pendingCallbacks r) as [|h rest] eqn:E; [constructor|].
  replace (ids (r, w)) with (h :: rest, map fst (settled w), promises w)
    by (unfold ids; cbn; now rewrite E).
  destruct (_ && _); [destruct (negb _)|]; rewrite ids_settle; constructor.
Qed.

Lemma rejectCurrentCommand_moved (why : Reason) (st : State) :
  moved (ids st) (ids (rejectCurrentCommand why st)).
Proof.
  destruct st as [r w]. unfold rejectCurrentCommand.
  destruct (pendingCallbacks r) as [|h rest] eqn:E; [constructor|].
  replace (ids (r, w)) with (h :: rest, map fst (settled w), promises w)
    by (unfold ids; cbn; now rewrite E).
  rewrite ids_settle. constructor.
Qed.

Lemma onStdoutData_moved (chunk : jsstring) (st : State) :
  moved (ids st) (ids (onStdoutData chunk st)).
Proof.
  destruct st as [r w]. unfold onStdoutData.
  destruct (includes END_OF_COMMAND chunk); [|constructor].
  pose proof (resolveCurrentCommand_moved
                (set_currentData
                   (currentData r ++ nth 0 (split END_OF_COMMAND chunk) []) r, w))
    as H.
  destruct (resolveCurrentCommand _) as [r2 w2].
  destruct (_ && _); exact H.
Qed.

Lemma invoke_moved (command : jsstring) (sp : SpawnResult) (writeOk : bool)
      (st : State) :
  moved (ids st) (ids (snd (invoke command sp writeOk st))).
Proof.
  destruct st as [r w]. unfold invoke, new_promise, startProcess, new_child.
  assert (Hqueue : moved (ids (r, w))
                         (pendingCallbacks r ++ [promises w],
                          map fst (settled w), S (promises w)))
    by (unfold ids; cbn; constructor).
  assert (Hshift : forall h rest,
             pendingCallbacks r ++ [promises w] = h :: rest ->
             moved (ids (r, w))
                   (rest, map fst (settled w) ++ [h], S (promises w))).
  { intros h rest E. eapply moved_then; [exact Hqueue|]. rewrite E. constructor. }
  assert (Hrefuse : moved (ids (r, w))
                          (pendingCallbacks r,
                           map fst (settled w) ++ [promises w], S (promises w)))
    by (unfold ids; cbn; constructor).
  destruct (isDisposed r) eqn:Ed, (process r) as [c|] eqn:Ep, sp, writeOk;
    cbn; rewrite ?Ep; cbn;
    try (unfold ids; cbn; rewrite ?map_app; cbn; first [exact Hqueue | exact Hrefuse]);
    destruct (pendingCallbacks r ++ [promises w]) as [|h rest] eqn:E;
    try (destruct (pendingCallbacks r); discriminate);
    unfold ids; cbn; rewrite ?map_app; cbn; now apply Hshift.
Qed.

Lemma step_moved (st : State) (e : Event) : moved (ids st) (ids (step st e)).
Proof.
  destruct e; cbn [step].
  - apply invoke_moved.
  - apply onStdoutData_moved.
  - destruct st as [r w]. constructor.
  - apply rejectCurrentCommand_moved.
  - destruct st as [r w]. unfold onExit.
    apply (rejectCurrentCommand_moved _ (set_process None r, w)).
  - destruct st as [r w]. unfold dispose. cbn.
    destruct (process r); constructor.
Qed.

Lemma moved_accounted (x y : list nat * list nat * nat) :
  moved x y -> accounted x -> accounted y.
Proof.
  induction 1 as [x|h rest done n|queue done n|queue done n|x y z _ IH1 _ IH2];
    auto; unfold accounted; intros [Hp Hs].
  - split.
    + rewrite <- Hp. rewrite app_assoc.
      rewrite (Permutation_app_comm (rest ++ done) [h]). reflexivity.
    + now inversion Hs.
  - split; [|exact Hs].
    rewrite seq_S, app_assoc. cbn. now apply Permutation_app_tail.
  - split.
    + rewrite seq_S. cbn. rewrite <- Hp, <- !app_assoc.
      apply Permutation_app_head, Permutation_app_comm.
    + assert (Hlt : Forall (fun q => q < n) queue).
      { apply Forall_forall. intros q Hq.
        assert (Hin : In q (seq 0 n))
          by (apply (Permutation_in _ Hp), in_or_app; now left).
        apply in_seq in Hin. lia. }
      clear Hp. induction Hs as [|q queue Hs IH Hq]; cbn.
      * repeat constructor.
      * inversion Hlt; subst. constructor; [now apply IH|].
        apply Forall_app. split; [exact Hq | now repeat constructor].
Qed.

Lemma run_moved (es : list Event) (st : State) :
  moved (ids st) (ids (run st es)).
Proof.
  revert st. induction es as [|e es IH]; intros st; cbn; [constructor|].
  eapply moved_then; [apply step_moved | apply IH].
Qed.

(** X1.  In whatever state a started runner is after any calls and
    events, every promise [invoke] has handed out is either still in the
    queue or has been settled, and no promise is in the queue twice, settled
    twice, or both. *)
Theorem promises_accounted (es : list Event) :
  let st := run started es in
  Permutation (pendingCallbacks (fst st) ++ map fst (settled (snd st)))
              (seq 0 (promises (snd st)))
  /\ NoDup (pendingCallbacks (fst st) ++ map fst (settled (snd st))).
Proof.
  intros st.
  assert (H : accounted (ids st)).
  { apply (moved_accounted (ids started)); [apply run_moved|].
    cbn. split; constructor. }
  destruct H as [Hp _]. split; [exact Hp|].
  apply (Permutation_NoDup (Permutation_sym Hp)), seq_NoDup.
Qed.

(** X2.  In whatever state a started runner is after any calls and
    events, the queue of pending callbacks holds the promises in the order
    in which [invoke] handed them out, so the request answered next is
    always the oldest one pending. *)
Theorem queue_oldest_first (es : list Event) :
  StronglySorted lt (pendingCallbacks (fst (run started es))).
Proof.
  assert (H : accounted (ids (run started es))).
  { apply (moved_accounted (ids started)); [apply run_moved|].
    cbn. split; constructor. }
  now destruct H.
Qed.

Lemma resolveCurrentCommand_answer (r : PowerShellRunner) (w : World)
      (h : nat) (rest : list nat) :
  pendingCallbacks r = h :: rest ->
  resolveCurrentCommand (r, w)
  = (set_pendingCallbacks rest r,
     settle h (answer (currentData r) (currentError r)) w).
Proof.
  intros E. unfold resolveCurrentCommand, answer. rewrite E.
  rewrite nonblank_truthy, truthy_trim.
  destruct (isBlank (currentError r)), (isBlank (currentData r)); reflexivity.
Qed.

(** The chunks of one command's output only fill the two buffers. *)
Lemma run_output (es : list Event) (r : PowerShellRunner) (w : World) :
  forallb isOutput es = true ->
  fold_left step es (r, w)
  = (mkRunner (process r) (isDisposed r) (pendingCallbacks r)
              (currentData r ++ stdoutOf es) (currentError r ++ stderrOf es),
     w).
Proof.
  revert r. induction es as [|e es IH]; intros r H; cbn [fold_left].
  - cbn. rewrite !app_nil_r. now destruct r.
  - cbn in H. apply andb_true_iff in H as [He Hes].
    destruct e; try discriminate; cbn [step isOutput] in *.
    + apply negb_true_iff in He. unfold onStdoutData. rewrite He.
      rewrite IH by exact Hes. cbn. now rewrite <- app_assoc.
    + unfold onStderrData. rewrite IH by exact Hes. cbn.
      now rewrite <- app_assoc.
Qed.

(** X3.  One request at a time is answered from its own output alone.
    On a runner that is not disposed, has a process and has no request
    pending, whatever the two buffers hold: after [invoke], any chunks on
    standard error and sentinel-free chunks on standard output, and then a
    chunk in which the sentinel first occurs after [before], the promise of
    that [invoke] is settled from exactly the standard output and standard
    error that came after the call; the command was written once, to the
    process the runner had, and no process was started. *)
Theorem sequential_exchange (r : PowerShellRunner) (w : World) (child : nat)
        (command : jsstring) (sp : SpawnResult) (es : list Event)
        (before after : jsstring) :
  isDisposed r = false ->
  process r = Some child ->
  pendingCallbacks r = [] ->
  forallb isOutput es = true ->
  includes END_OF_COMMAND (before ++ removelast END_OF_COMMAND) = false ->
  let st := run (snd (invoke command sp true (r, w)))
                (es ++ [StdoutData (before ++ END_OF_COMMAND ++ after)]) in
  fst (invoke command sp true (r, w)) = promises w
  /\ settled (snd st)
     = settled w ++ [(promises w, answer (stdoutOf es ++ before) (stderrOf es))]
  /\ pendingCallbacks (fst st) = []
  /\ written (snd st) = written w ++ [(child, fullCommand command ++ [10%N])]
  /\ spawned (snd st) = spawned w.
Proof.
  intros Hd Hp Hq Hes Hfirst st. subst st.
  assert (Hinv : invoke command sp true (r, w)
                 = (promises w,
                    (mkRunner (Some child) false [promises w] [] [],
                     mkWorld (settled w) (spawned w) (killed w)
                             (written w
                              ++ [(child, fullCommand command ++ [10%N])])
                             (S (promises w))))).
  { unfold invoke, new_promise. rewrite Hd, Hp. cbn.
    unfold set_currentError, set_currentData, set_pendingCallbacks, write.
    cbn. now rewrite Hd, Hp, Hq. }
  rewrite Hinv. cbn [fst snd]. split; [reflexivity|].
  unfold run. rewrite fold_left_app.
  rewrite run_output by exact Hes. cbn [fold_left step].
  rewrite onStdoutData_first by exact Hfirst. cbv zeta.
  rewrite (resolveCurrentCommand_answer _ _ (promises w) []) by reflexivity.
  cbn [process isDisposed pendingCallbacks currentData currentError app
       set_currentData set_pendingCallbacks fst snd].
  destruct (_ && _); cbn; repeat split; reflexivity.
Qed.

(** Error output next to an empty answer rejects the request, although
    the buffers held text of an earlier command. *)
Lemma sequential_exchange_witness :
  let r := mkRunner (Some 0) false [] (lit "stale") (lit "old") in
  let w := mkWorld [] 1 [] [] 0 in
  let es := [StderrData (lit "bad "); StdoutData (lit " "); StderrData (lit "input")] in
  let st := run (snd (invoke (lit "x") SpawnPid true (r, w)))
                (es ++ [StdoutData ([10%N] ++ END_OF_COMMAND ++ [10%N])]) in
  forallb isOutput es = true
  /\ settled (snd st) = [(0, Rejected (StderrText (lit "bad input")))].
Proof.
  intros r w es st.
  assert (Hes : forallb isOutput es = true) by reflexivity.
  split; [exact Hes|].
  destruct (sequential_exchange r w 0 (lit "x") SpawnPid es [10%N] [10%N]
                                eq_refl eq_refl eq_refl Hes eq_refl)
    as (_ & H & _).
  exact H.
Defined.

(** What a call or event leaves alone on a disposed runner. *)
Lemma step_disposed (st : State) (e : Event) :
  isDisposed (fst st) = true -> process (fst st) = None ->
  isDisposed (fst (step st e)) = true
  /\ process (fst (step st e)) = None
  /\ spawned (snd (step st e)) = spawned (snd st)
  /\ killed (snd (step st e)) = killed (snd st)
  /\ written (snd (step st e)) = written (snd st).
Proof.
  destruct st as [r w]. cbn [fst snd]. intros Hd Hp.
  destruct e; cbn [step].
  - unfold invoke, new_promise. rewrite Hd. cbn. auto.
  - unfold onStdoutData, resolveCurrentCommand.
    destruct (includes _ _); [|cbn; auto].
    cbn. destruct (pendingCallbacks r); [|destruct (_ && _); [destruct (negb _)|]];
      destruct (_ && _); cbn; auto.
  - cbn. auto.
  - unfold onError, rejectCurrentCommand.
    destruct (pendingCallbacks r); cbn; auto.
  - unfold onExit, rejectCurrentCommand. cbn.
    destruct (pendingCallbacks r); cbn; auto.
  - unfold dispose. cbn. rewrite Hp. cbn. auto.
Qed.

Lemma run_disposed (es : list Event) (st : State) :
  isDisposed (fst st) = true -> process (fst st) = None ->
  isDisposed (fst (run st es)) = true
  /\ process (fst (run st es)) = None
  /\ spawned (snd (run st es)) = spawned (snd st)
  /\ killed (snd (run st es)) = killed (snd st)
  /\ written (snd (run st es)) = written (snd st).
Proof.
  revert st. induction es as [|e es IH]; intros st Hd Hp; cbn; [auto|].
  destruct (step_disposed st e Hd Hp) as (H1 & H2 & H3 & H4 & H5).
  destruct (IH (step st e) H1 H2) as (G1 & G2 & G3 & G4 & G5).
  unfold run in *. repeat split; congruence.
Qed.

(** X4.  After [dispose], whatever calls and events follow, the runner
    stays disposed and without process, starts no process, kills none and
    writes nothing; and every [invoke] returns a promise that is already
    rejected, as disposed, and leaves the queue as it is. *)
Theorem disposed_runner_inert (st : State) (es : list Event) :
  let st' := run (dispose st) es in
  isDisposed (fst st') = true
  /\ process (fst st') = None
  /\ spawned (snd st') = spawned (snd st)
  /\ killed (snd st') = killed (snd (dispose st))
  /\ written (snd st') = written (snd st)
  /\ forall command sp writeOk,
      let after := snd (invoke command sp writeOk st') in
      settled (snd after)
      = settled (snd st') ++ [(promises (snd st'), Rejected RunnerDisposed)]
      /\ pendingCallbacks (fst after) = pendingCallbacks (fst st')
      /\ spawned (snd after) = spawned (snd st)
      /\ written (snd after) = written (snd st).
Proof.
  intros st'. subst st'.
  assert (Hd : isDisposed (fst (dispose st)) = true)
    by (destruct st as [r w]; unfold dispose; cbn; now destruct (process r)).
  assert (Hp : process (fst (dispose st)) = None)
    by (destruct st as [r w]; unfold dispose; cbn;
        now destruct (process r) eqn:E).
  assert (Hs : spawned (snd (dispose st)) = spawned (snd st))
    by (destruct st as [r w]; unfold dispose; cbn; now destruct (process r)).
  assert (Hw : written (snd (dispose st)) = written (snd st))
    by (destruct st as [r w]; unfold dispose; cbn; now destruct (process r)).
  destruct (run_disposed es (dispose st) Hd Hp) as (H1 & H2 & H3 & H4 & H5).
  repeat (split; [congruence|]).
  intros command sp writeOk after. subst after.
  destruct (run (dispose st) es) as [r w]. cbn [fst snd] in *.
  unfold invoke, new_promise. rewrite H1. cbn.
  repeat split; congruence.
Qed.

(** X5.  When writing the command fails, the promise rejected is the one
    at the head of the queue: with a request already pending, that older
    request is rejected and the new promise stays in the queue; with no
    request pending, the new promise itself is rejected.  Nothing is
    written and no process is started. *)
Theorem write_failure_rejects_oldest (r : PowerShellRunner) (w : World)
        (child : nat) (command : jsstring) (sp : SpawnResult) :
  isDisposed r = false ->
  process r = Some child ->
  let p := fst (invoke command sp false (r, w)) in
  let st' := snd (invoke command sp false (r, w)) in
  p = promises w
  /\ written (snd st') = written w
  /\ spawned (snd st') = spawned w
  /\ match pendingCallbacks r with
     | [] =>
         pendingCallbacks (fst st') = []
         /\ settled (snd st') = settled w ++ [(p, Rejected WriteFailed)]
     | oldest :: rest =>
         pendingCallbacks (fst st') = rest ++ [p]
         /\ settled (snd st') = settled w ++ [(oldest, Rejected WriteFailed)]
     end.
Proof.
  intros Hd Hp p st'. subst p st'.
  unfold invoke, new_promise. rewrite Hd, Hp. cbn. rewrite Hp.
  destruct (pendingCallbacks r) as [|oldest rest]; cbn; auto.
Qed.

(** With one request pending, a failed write rejects that request. *)
Lemma write_failure_rejects_oldest_witness :
  let st := snd (invoke (lit "first") SpawnPid true started) in
  let st' := snd (invoke (lit "second") SpawnPid false st) in
  isDisposed (fst st) = false
  /\ process (fst st) = Some 0
  /\ pendingCallbacks (fst st') = [1]
  /\ settled (snd st') = [(0, Rejected WriteFailed)].
Proof.
  intros st st'.
  assert (Hd : isDisposed (fst st) = false) by reflexivity.
  assert (Hp : process (fst st) = Some 0) by reflexivity.
  split; [exact Hd|]. split; [exact Hp|].
  destruct (write_failure_rejects_oldest (fst st) (snd st) 0 (lit "second")
                                         SpawnPid Hd Hp)
    as (_ & _ & _ & H).
  exact H.
Defined.

(** X6.  When the interpreter cannot be started (the child has no pid),
    the promise of that [invoke] is rejected and nothing is queued or
    written, but the child stays in the [process] field: the next [invoke]
    does not start a process, whatever a start would do, and writes its
    command to that child. *)
Theorem failed_start_blocks_restart (r : PowerShellRunner) (w : World)
        (command next : jsstring) (sp : SpawnResult) :
  isDisposed r = false ->
  process r = None ->
  let p := fst (invoke command SpawnNoPid true (r, w)) in
  let st' := snd (invoke command SpawnNoPid true (r, w)) in
  let st2 := snd (invoke next sp true st') in
  settled (snd st') = settled w ++ [(p, Rejected SpawnFailed)]
  /\ pendingCallbacks (fst st') = pendingCallbacks r
  /\ written (snd st') = written w
  /\ process (fst st') = Some (spawned w)
  /\ spawned (snd st') = S (spawned w)
  /\ spawned (snd st2) = S (spawned w)
  /\ process (fst st2) = Some (spawned w)
  /\ written (snd st2) = written w ++ [(spawned w, fullCommand next ++ [10%N])].
Proof.
  intros Hd Hp p st' st2. subst p st' st2.
  unfold invoke, new_promise, startProcess, new_child.
  rewrite Hd, Hp. cbn. rewrite Hd. cbn. repeat split; reflexivity.
Qed.

(** A runner that lost its process and then fails to start one. *)
Lemma failed_start_blocks_restart_witness :
  let lost := run started [ProcExit (Some 1%Z)] in
  let st' := snd (invoke (lit "a") SpawnNoPid true lost) in
  let st2 := snd (invoke (lit "b") SpawnPid true st') in
  isDisposed (fst lost) = false
  /\ process (fst lost) = None
  /\ settled (snd st') = [(0, Rejected SpawnFailed)]
  /\ spawned (snd st2) = 2
  /\ process (fst st2) = Some 1.
Proof.
  intros lost st' st2.
  assert (Hd : isDisposed (fst lost) = false) by reflexivity.
  assert (Hp : process (fst lost) = None) by reflexivity.
  split; [exact Hd|]. split; [exact Hp|].
  destruct (failed_start_blocks_restart (fst lost) (snd lost) (lit "a") (lit "b")
                                        SpawnPid Hd Hp)
    as (H1 & _ & _ & _ & _ & H6 & H7 & _).
  repeat split; assumption.
Defined.

End RunnerRuns.

(** ** extension.ts: the tree builder on any list *)

Section MapLaws.

Context {V : Type}.

Lemma get_absent_keys (k : Z) (m : JsMap.t V) :
  JsMap.get k m = None <-> ~ In k (JsMap.keys m).
Proof.
  induction m as [|[k' v'] m IH]; cbn; [tauto|].
  destruct (k =? k')%Z eqn:E.
  - apply Z.eqb_eq in E. subst. split; [discriminate | tauto].
  - apply Z.eqb_neq in E. rewrite IH. intuition congruence.
Qed.

Lemma keys_set_present (k : Z) (v : V) (m : JsMap.t V) :
  In k (JsMap.keys m) -> JsMap.keys (JsMap.set k v m) = JsMap.keys m.
Proof.
  induction m as [|[k' v'] m IH]; cbn; [contradiction|].
  destruct (k =? k')%Z eqn:E; [reflexivity|].
  apply Z.eqb_neq in E. intros [H|H]; [congruence|].
  cbn. f_equal. now apply IH.
Qed.

Lemma keys_set (k : Z) (v : V) (m : JsMap.t V) :
  JsMap.keys (JsMap.set k v m)
  = if in_dec Z.eq_dec k (JsMap.keys m) then JsMap.keys m
    else JsMap.keys m ++ [k].
Proof.
  destruct (in_dec Z.eq_dec k (JsMap.keys m)) as [H|H].
  - now apply keys_set_present.
  - apply get_absent_keys in H. rewrite (set_absent k v m H).
    unfold JsMap.keys. now rewrite map_app.
Qed.

Lemma get_set_same (k : Z) (v : V) (m : JsMap.t V) :
  JsMap.get k (JsMap.set k v m) = Some v.
Proof.
  induction m as [|[k' v'] m IH]; cbn.
  - now rewrite Z.eqb_refl.
  - destruct (k =? k')%Z eqn:E; cbn; rewrite E; [reflexivity | exact IH].
Qed.

Lemma get_set_other (k k' : Z) (v : V) (m : JsMap.t V) :
  k' <> k -> JsMap.get k' (JsMap.set k v m) = JsMap.get k' m.
Proof.
  intros Hne. induction m as [|[k2 v2] m IH]; cbn.
  - apply Z.eqb_neq in Hne. now rewrite Hne.
  - destruct (k =? k2)%Z eqn:E; cbn.
    + apply Z.eqb_eq in E. subst k2.
      apply Z.eqb_neq in Hne. now rewrite Hne.
    + now rewrite IH.
Qed.

Lemma In_set (k k' : Z) (v v' : V) (m : JsMap.t V) :
  In (k', v') (JsMap.set k v m) -> (k' = k /\ v' = v) \/ In (k', v') m.
Proof.
  induction m as [|[k2 v2] m IH]; cbn.
  - intros [[= <- <-]|[]]. now left.
  - destruct (k =? k2)%Z eqn:E; cbn.
    + apply Z.eqb_eq in E. subst. intros [[= <- <-]|H]; auto.
    + intros [H|H]; auto. destruct (IH H); auto.
Qed.

Lemma NoDup_keys_set (k : Z) (v : V) (m : JsMap.t V) :
  NoDup (JsMap.keys m) -> NoDup (JsMap.keys (JsMap.set k v m)).
Proof.
  intros H. rewrite keys_set.
  destruct (in_dec Z.eq_dec k (JsMap.keys m)) as [Hin|Hin]; [exact H|].
  apply NoDup_app; [exact H | repeat constructor; intros [] |].
  intros a Ha [<-|[]]. contradiction.
Qed.

End MapLaws.

Section BuilderAnyList.

Import TreeBuilder TreeIndex.

Lemma find_app {A} (f : A -> bool) (l l' : list A) :
  find f (l ++ l')
  = match find f l with Some x => Some x | None => find f l' end.
Proof.
  induction l as [|x l IH]; cbn; [reflexivity|].
  destruct (f x); [reflexivity | exact IH].
Qed.

Lemma firstPass_from_any (L : list FlatAstNode.t) (acc : NodeMap) :
  NoDup (JsMap.keys acc) ->
  (forall k node, In (k, node) acc ->
                  PowerShellAstNode.hashCode node = k
                  /\ PowerShellAstNode.children node = []) ->
  let m := fold_left
             (fun nodeMap flatNode =>
                JsMap.set (FlatAstNode.hashCode flatNode) (treeNode flatNode)
                          nodeMap) L acc in
  NoDup (JsMap.keys m)
  /\ (forall k node, In (k, node) m ->
                     PowerShellAstNode.hashCode node = k
                     /\ PowerShellAstNode.children node = [])
  /\ (forall k, In k (JsMap.keys m) <-> In k (JsMap.keys acc) \/ In k (hashes L))
  /\ (forall k, JsMap.get k m
                = match find (fun n => (FlatAstNode.hashCode n =? k)%Z) (rev L) with
                  | Some n => Some (treeNode n)
                  | None => JsMap.get k acc
                  end).
Proof.
  revert acc. induction L as [|n L IH]; intros acc Hnd Hwf; cbn [fold_left].
  - cbv zeta. split; [exact Hnd|]. split; [exact Hwf|]. split.
    + intros k. cbn. tauto.
    + reflexivity.
  - destruct (IH (JsMap.set (FlatAstNode.hashCode n) (treeNode n) acc))
      as (H1 & H2 & H3 & H4).
    + now apply NoDup_keys_set.
    + intros k node Hin. apply In_set in Hin as [[-> ->]|Hin]; auto.
    + cbv zeta. split; [exact H1|]. split; [exact H2|]. split.
      * intros k. rewrite H3, keys_set. cbn [hashes map].
        destruct (in_dec Z.eq_dec _ _) as [Hin|Hin].
        -- split.
           ++ intros [H|H]; [left; exact H | right; right; exact H].
           ++ intros [H|[E|H]];
                [left; exact H | left; subst k; exact Hin | right; exact H].
        -- rewrite in_app_iff. cbn. tauto.
      * intros k. rewrite H4. cbn [rev]. rewrite find_app. cbn [find].
        destruct (find _ (rev L)); [reflexivity|].
        destruct (FlatAstNode.hashCode n =? k)%Z eqn:E.
        -- apply Z.eqb_eq in E. subst k. apply get_set_same.
        -- apply Z.eqb_neq in E. apply get_set_other. congruence.
Qed.

Lemma link_sound (keys : list Z) (acc : NodeMap * list Z) (k : Z) :
  sound keys acc -> In k keys ->
  sound keys (link acc k)
  /\ forall k', option_map unlinked (JsMap.get k' (fst (link acc k)))
                = option_map unlinked (JsMap.get k' (fst acc)).
Proof.
  destruct acc as [m rs]. unfold sound. cbn [fst snd].
  intros (Hk & Hnd & Hwf & Hrs) Hin. unfold link.
  destruct (JsMap.get k m) as [node|] eqn:Eg; [|cbn; auto].
  destruct (PowerShellAstNode.parentHashCode node) as [ph|].
  - destruct (JsMap.get ph m) as [parent|] eqn:Ep; [|cbn; auto].
    cbn [fst snd].
    assert (Hph : In ph (JsMap.keys m)).
    { destruct (in_dec Z.eq_dec ph (JsMap.keys m)) as [H|H]; [exact H|].
      apply get_absent_keys in H. congruence. }
    destruct (Hwf ph parent (get_In _ _ _ Ep)) as [Hh Hc].
    split.
    + split; [now rewrite keys_set_present|]. split; [exact Hnd|].
      split; [|exact Hrs].
      intros k' node' Hin'. apply In_set in Hin' as [[-> ->]|Hin'].
      * split; [exact Hh|].
        unfold PowerShellAstNode.push_child. cbn [PowerShellAstNode.children
          PowerShellAstNode.set_children].
        intros c Hc'. apply in_app_or in Hc' as [Hc'|[<-|[]]];
          [now apply Hc | exact Hin].
      * now apply Hwf.
    + intros k'. destruct (Z.eq_dec k' ph) as [->|Hne].
      * now rewrite get_set_same, Ep.
      * now rewrite get_set_other.
  - cbn [fst snd]. split; [|reflexivity].
    split; [exact Hk|]. split; [exact Hnd|]. split; [exact Hwf|].
    intros c Hc. apply in_app_or in Hc as [Hc|[<-|[]]]; auto.
Qed.

Lemma link_all_sound (keys ks : list Z) (acc : NodeMap * list Z) :
  sound keys acc -> incl ks keys ->
  sound keys (fold_left link ks acc)
  /\ forall k', option_map unlinked (JsMap.get k' (fst (fold_left link ks acc)))
                = option_map unlinked (JsMap.get k' (fst acc)).
Proof.
  revert acc. induction ks as [|k ks IH]; intros acc Hs Hincl; cbn [fold_left].
  - auto.
  - destruct (link_sound keys acc k Hs) as [Hs' Hu]; [apply Hincl; now left|].
    destruct (IH (link acc k) Hs') as [Hs2 Hu2];
      [intros x Hx; apply Hincl; now right|].
    split; [exact Hs2|]. intros k'. now rewrite Hu2, Hu.
Qed.

Lemma build_sound (L : list FlatAstNode.t) :
  sound (JsMap.keys (fst (buildTreeFromFlatData L))) (buildTreeFromFlatData L)
  /\ (forall k, In k (JsMap.keys (fst (buildTreeFromFlatData L)))
                <-> In k (hashes L))
  /\ forall k, option_map unlinked (JsMap.get k (fst (buildTreeFromFlatData L)))
               = option_map treeNode
                   (find (fun n => (FlatAstNode.hashCode n =? k)%Z) (rev L)).
Proof.
  destruct L as [|n L].
  - cbn. split; [|split].
    + unfold sound. cbn. split; [reflexivity|]. split; [constructor|].
      split; [intros ? ? [] | intros ? []].
    + intros k. cbn. tauto.
    + reflexivity.
  - unfold buildTreeFromFlatData, secondPass.
    destruct (firstPass_from_any (n :: L) [] (NoDup_nil _))
      as (H1 & H2 & H3 & H4); [intros ? ? []|].
    fold (firstPass (n :: L)) in H1, H2, H3, H4. cbv zeta in *.
    assert (Hs : sound (JsMap.keys (firstPass (n :: L))) (firstPass (n :: L), [])).
    { unfold sound. cbn [fst snd]. split; [reflexivity|]. split; [exact H1|].
      split; [|intros ? []].
      intros k node Hin. destruct (H2 k node Hin) as [Hh ->].
      split; [exact Hh | intros ? []]. }
    destruct (link_all_sound _ (JsMap.keys (firstPass (n :: L))) _ Hs
                             (incl_refl _)) as [Hs' Hu].
    pose proof Hs' as (Hk & _).
    split; [now rewrite Hk|]. split.
    + intros k. rewrite Hk, H3. unfold JsMap.keys at 1. cbn [map In]. tauto.
    + intros k. rewrite Hu. cbn [fst]. rewrite H4.
      now destruct (find _ (rev (n :: L))).
Qed.

(** X7.  For any list of flat nodes, also one with repeated hashes,
    orphans or cycles: the index the builder fills has one entry for each
    hash that occurs in the list, every tree node sits under its own hash,
    and every reference in a children array and in the array of roots is a
    key of the index. *)
Theorem index_without_dangling_references (L : list FlatAstNode.t) :
  let store := fst (buildTreeFromFlatData L) in
  let rootNodes := snd (buildTreeFromFlatData L) in
  NoDup (JsMap.keys store)
  /\ (forall k, In k (JsMap.keys store) <-> In k (hashes L))
  /\ (forall k node,
         In (k, node) store ->
         PowerShellAstNode.hashCode node = k
         /\ incl (PowerShellAstNode.children node) (JsMap.keys store))
  /\ incl rootNodes (JsMap.keys store).
Proof.
  destruct (build_sound L) as ((_ & Hnd & Hwf & Hrs) & Hk & _).
  cbv zeta. auto.
Qed.

(** X8.  When several flat nodes carry the same hash, the index holds,
    under that hash, the tree node made of the last of them; a hash that no
    flat node carries has no entry. *)
Theorem index_keeps_last_of_equal_hashes (L : list FlatAstNode.t) (k : Z) :
  option_map unlinked (JsMap.get k (fst (buildTreeFromFlatData L)))
  = option_map treeNode
      (find (fun n => (FlatAstNode.hashCode n =? k)%Z) (rev L)).
Proof. apply build_sound. Qed.

End BuilderAnyList.

(** ** extension.ts: the order of roots and children *)

Section BuilderOrder.

Import TreeBuilder TreeIndex.

(** X9.  For a list with unique hashes, the array of roots lists the
    nodes without parent in the order of the list, and the children array
    of every node lists the nodes that name it as parent, in the order of
    the list. *)
Theorem roots_and_children_in_input_order (L : list FlatAstNode.t) :
  uniqueHashes L = true ->
  let store := fst (buildTreeFromFlatData L) in
  let rootNodes := snd (buildTreeFromFlatData L) in
  rootNodes = hashes (filter isRoot L)
  /\ forall n, In n L ->
               exists node,
                 JsMap.get (FlatAstNode.hashCode n) store = Some node
                 /\ PowerShellAstNode.children node
                    = hashes (filter (namesParent (FlatAstNode.hashCode n)) L).
Proof.
  intros Hu store rootNodes. subst store rootNodes.
  rewrite (build_spec L Hu). cbn [fst snd].
  apply distinct_NoDup in Hu.
  split; [now apply roots_of_list|].
  intros n Hn. exists (linkedNode L (hashes L) n).
  split; [now apply get_linkedStore|].
  cbn [linkedNode PowerShellAstNode.children PowerShellAstNode.set_children].
  unfold childrenAmong, hashes. rewrite filter_map_swap. f_equal.
  apply filter_ext_in. intros c Hc.
  rewrite (parentOf_node L c Hu Hc). reflexivity.
Qed.

(** The root of the small tree has its two children in the order of the
    list. *)
Lemma roots_and_children_in_input_order_witness :
  uniqueHashes smallTree = true
  /\ snd (buildTreeFromFlatData smallTree) = [10%Z]
  /\ exists node,
      JsMap.get 10%Z (fst (buildTreeFromFlatData smallTree)) = Some node
      /\ PowerShellAstNode.children node = [11%Z; 12%Z].
Proof.
  assert (Hu : uniqueHashes smallTree = true) by reflexivity.
  split; [exact Hu|].
  destruct (roots_and_children_in_input_order smallTree Hu) as [Hr Hc].
  split; [exact Hr|].
  apply (Hc (bare 10 None)). now left.
Defined.

End BuilderOrder.

(** ** extension.ts: escapeHtml *)

Section HtmlFacts.

Import JsString Html.

Lemma replaceAll_app (c : N) (rep a b : jsstring) :
  replaceAll c rep (a ++ b) = replaceAll c rep a ++ replaceAll c rep b.
Proof. apply flat_map_app. Qed.

Lemma escapeHtml_app (a b : jsstring) :
  escapeHtml (a ++ b) = escapeHtml a ++ escapeHtml b.
Proof. unfold escapeHtml. now rewrite !replaceAll_app. Qed.

(** The five replacements, one after the other, on one character. *)
Lemma escapeHtml_one (x : N) : escapeHtml [x] = escapeChar x.
Proof.
  unfold escapeHtml, escapeChar, replaceAll. cbn [flat_map].
  destruct (x =? amp)%N eqn:E1; [reflexivity|]. cbn [app flat_map].
  destruct (x =? lt)%N eqn:E2; [reflexivity|]. cbn [app flat_map].
  destruct (x =? gt)%N eqn:E3; [reflexivity|]. cbn [app flat_map].
  destruct (x =? quot)%N eqn:E4; [reflexivity|]. cbn [app flat_map].
  destruct (x =? apos)%N eqn:E5; reflexivity.
Qed.

(** The five replacements amount to one pass that replaces each
    character on its own. *)
Lemma escapeHtml_chars (text : jsstring) :
  escapeHtml text = flat_map escapeChar text.
Proof.
  induction text as [|x text IH]; [reflexivity|].
  change (x :: text) with ([x] ++ text).
  rewrite escapeHtml_app, escapeHtml_one, IH. reflexivity.
Qed.

Lemma escapeChar_safe (x : N) :
  Forall (fun c => isMarkup c = false) (escapeChar x).
Proof.
  unfold escapeChar.
  destruct (x =? amp)%N eqn:E1; [repeat constructor|].
  destruct (x =? lt)%N eqn:E2; [repeat constructor|].
  destruct (x =? gt)%N eqn:E3; [repeat constructor|].
  destruct (x =? quot)%N eqn:E4; [repeat constructor|].
  destruct (x =? apos)%N eqn:E5; [repeat constructor|].
  constructor; [|constructor]. unfold isMarkup. now rewrite E2, E3, E4, E5.
Qed.

(** X10.  The text [escapeHtml] returns holds none of the characters
    [<], [>], double quote and single quote; and escaping a text piece by
    piece and joining the results is escaping the whole. *)
Theorem escapeHtml_removes_markup (a b : jsstring) :
  Forall (fun c => isMarkup c = false) (escapeHtml a)
  /\ escapeHtml (a ++ b) = escapeHtml a ++ escapeHtml b.
Proof.
  split; [|apply escapeHtml_app].
  rewrite escapeHtml_chars.
  induction a as [|x a IH]; cbn; [constructor|].
  apply Forall_app. split; [apply escapeChar_safe | exact IH].
Qed.

Lemma escapeChar_cases (x : N) : Escaped x (escapeChar x).
Proof.
  unfold escapeChar.
  destruct (x =? amp)%N eqn:E1; [apply N.eqb_eq in E1; now constructor|].
  destruct (x =? lt)%N eqn:E2; [apply N.eqb_eq in E2; now constructor|].
  destruct (x =? gt)%N eqn:E3; [apply N.eqb_eq in E3; now constructor|].
  destruct (x =? quot)%N eqn:E4; [apply N.eqb_eq in E4; now constructor|].
  destruct (x =? apos)%N eqn:E5; [apply N.eqb_eq in E5; now constructor|].
  apply N.eqb_neq in E1. now constructor.
Qed.

Lemma escaped_injective (x y : N) (ex ey restx resty : jsstring) :
  Escaped x ex -> Escaped y ey ->
  ex ++ restx = ey ++ resty -> x = y /\ restx = resty.
Proof.
  intros Hx Hy H.
  destruct Hx, Hy; subst; cbn in H; try discriminate;
    injection H; intros; subst;
    first [ split; reflexivity | exfalso; unfold amp in *; congruence ].
Qed.

(** X11.  [escapeHtml] loses nothing: two texts with the same escaped
    form are the same text. *)
Theorem escapeHtml_injective (a b : jsstring) :
  escapeHtml a = escapeHtml b -> a = b.
Proof.
  rewrite !escapeHtml_chars. revert b.
  induction a as [|x a IH]; intros [|y b] H; cbn in H.
  - reflexivity.
  - destruct (escapeChar_cases y); discriminate.
  - destruct (escapeChar_cases x); discriminate.
  - destruct (escaped_injective x y _ _ _ _ (escapeChar_cases x)
                                (escapeChar_cases y) H) as [-> Hrest].
    f_equal. now apply IH.
Qed.

Lemma escapeHtml_injective_witness :
  escapeHtml (lit "a<b") = lit "a&lt;b"
  /\ lit "a<b" = [97%N; 60%N; 98%N].
Proof.
  split; [reflexivity|].
  apply (escapeHtml_injective (lit "a<b") [97%N; 60%N; 98%N]). reflexivity.
Defined.

End HtmlFacts.

(** ** AstParse.ps1: more on truncation *)

Section TruncationMore.

Import AstParse.

(** X12.  For a cap that is not negative, [TrimString] returns at most
    three code units more than the cap, leaves the first [cap] code units of
    the text as they are, and changes nothing when applied a second time. *)
Theorem TrimString_bounded_and_idempotent (s : jsstring) (cap : Z) :
  (0 <= cap)%Z ->
  length (TrimString2 s cap) <= Z.to_nat cap + 3
  /\ firstn (Z.to_nat cap) (TrimString2 s cap) = firstn (Z.to_nat cap) s
  /\ TrimString2 (TrimString2 s cap) cap = TrimString2 s cap.
Proof.
  intros Hcap.
  destruct (Z_le_gt_dec (Z.of_nat (length s)) cap) as [Hle|Hgt].
  - rewrite !(TrimString2_short s cap Hle). repeat split. lia.
  - destruct (TrimString2_long s cap) as [Heq Hlen]; [lia|].
    split; [lia|]. split.
    + rewrite Heq, firstn_app, length_firstn.
      replace (Z.to_nat cap - Nat.min (Z.to_nat cap) (length s)) with 0 by lia.
      cbn [firstn]. rewrite app_nil_r, firstn_firstn. f_equal. lia.
    + destruct (TrimString2_long (TrimString2 s cap) cap) as [Heq2 _]; [lia|].
      rewrite Heq2. rewrite Heq at 2. f_equal.
      rewrite Heq, firstn_app, length_firstn.
      replace (Z.to_nat cap - Nat.min (Z.to_nat cap) (length s)) with 0 by lia.
      cbn [firstn]. rewrite app_nil_r, firstn_firstn. f_equal. lia.
Qed.

Lemma TrimString_bounded_and_idempotent_witness :
  length (TrimString2 (repeat 120%N 9) 4) <= 7
  /\ TrimString2 (TrimString2 (repeat 120%N 9) 4) 4
     = TrimString2 (repeat 120%N 9) 4.
Proof.
  destruct (TrimString_bounded_and_idempotent (repeat 120%N 9) 4) as (H1 & _ & H3);
    [lia|].
  split; [exact H1 | exact H3].
Defined.

End TruncationMore.

(** ** extension.ts: executePowerShell and analyzeContent *)

Section AnalyzerMore.

Import JsString Analyzer.

Lemma trimStart_fixed (c : N) (s : jsstring) :
  isWhiteSpace c = false -> trimStart (c :: s) = c :: s.
Proof. intros H. cbn. now rewrite H. Qed.

Lemma trimStart_twice (s : jsstring) : trimStart (trimStart s) = trimStart s.
Proof.
  induction s as [|c s IH]; [reflexivity|].
  cbn. destruct (isWhiteSpace c) eqn:E; [exact IH|].
  now apply trimStart_fixed.
Qed.

Lemma trimStart_snoc (u : jsstring) (c : N) :
  isWhiteSpace c = false -> exists u', trimStart (u ++ [c]) = u' ++ [c].
Proof.
  intros Hc. induction u as [|d u IH]; cbn.
  - rewrite Hc. now exists [].
  - destruct (isWhiteSpace d); [exact IH|]. now exists (d :: u).
Qed.

Lemma trimEnd_twice (s : jsstring) : trimEnd (trimEnd s) = trimEnd s.
Proof. unfold trimEnd. now rewrite rev_involutive, trimStart_twice. Qed.

(** Trimming a trimmed text changes nothing, at either end. *)
Lemma trim_trimmed (s : jsstring) :
  trimStart (trim s) = trim s /\ trimEnd (trim s) = trim s.
Proof.
  unfold trim. split; [|apply trimEnd_twice].
  destruct (trimStart s) as [|c t] eqn:E; [reflexivity|].
  assert (Hc : isWhiteSpace c = false).
  { pose proof (trimStart_twice s) as H. rewrite E in H.
    cbn in H. destruct (isWhiteSpace c); [|reflexivity].
    exfalso. assert (Hlen : length (trimStart t) <= length t).
    { clear. induction t as [|d t IH]; cbn; [lia|].
      destruct (isWhiteSpace d); cbn; lia. }
    rewrite H in Hlen. cbn in Hlen. lia. }
  unfold trimEnd. cbn [rev].
  destruct (trimStart_snoc (rev t) c Hc) as [u' ->].
  rewrite rev_app_distr. cbn. now rewrite Hc.
Qed.

Lemma ansiMatch_none (s : jsstring) :
  match s with c :: _ => (c =? 27)%N = false | [] => True end ->
  ansiMatch s = None.
Proof.
  destruct s as [|a [|b rest]]; try reflexivity.
  intros H. cbn. now rewrite H.
Qed.

Lemma stripAnsi_clean (s : jsstring) :
  forallb (fun c => negb (c =? 27)%N) s = true -> stripAnsi s = s.
Proof.
  unfold stripAnsi. induction s as [|c s IH]; intros H; [reflexivity|].
  cbn [forallb] in H. apply andb_true_iff in H as [Hc Hs].
  apply negb_true_iff in Hc.
  cbn [stripAnsi_from]. rewrite ansiMatch_none by exact Hc.
  now rewrite IH.
Qed.

Lemma normalizeLineEndings_clean (s : jsstring) :
  forallb (fun c => negb (c =? 13)%N) s = true -> normalizeLineEndings s = s.
Proof.
  induction s as [|c s IH]; intros H; [reflexivity|].
  cbn [forallb] in H. apply andb_true_iff in H as [Hc Hs].
  apply negb_true_iff in Hc.
  cbn [normalizeLineEndings]. destruct s as [|d s']; [reflexivity|].
  rewrite Hc. cbn [andb]. now rewrite IH.
Qed.

(** X13.  When the interpreter exits with code 0, the promise of
    [executePowerShell] is fulfilled whatever arrived on standard error,
    with a text that has no white space at either end; when standard output
    holds neither an escape character nor a carriage return, that text is
    standard output, trimmed. *)
Theorem executePowerShell_clean_output (stdout stderr : jsstring) :
  exists text,
    executePowerShell_onClose (Some 0%Z) stdout stderr = ret text
    /\ trimStart text = text
    /\ trimEnd text = text
    /\ (forallb (fun c => negb (c =? 27)%N && negb (c =? 13)%N) stdout = true ->
        text = trim stdout).
Proof.
  eexists. split; [reflexivity|].
  split; [apply trim_trimmed|]. split; [apply trim_trimmed|].
  intros H.
  assert (H27 : forallb (fun c => negb (c =? 27)%N) stdout = true).
  { rewrite forallb_forall in *. intros c Hc.
    specialize (H c Hc). now apply andb_true_iff in H. }
  assert (H13 : forallb (fun c => negb (c =? 13)%N) stdout = true).
  { rewrite forallb_forall in *. intros c Hc.
    specialize (H c Hc). now apply andb_true_iff in H. }
  now rewrite stripAnsi_clean, normalizeLineEndings_clean.
Qed.

(** X14.  [analyzeContent] shows at most one message, and whenever it
    shows one it returns the empty forest.  It shows none only when the
    interpreter's output was decoded to a document without error mark, and
    it then returns what the builder makes of that document: for the object
    [{ nodes, errors }], which is not an array, the empty forest. *)
Theorem analyzeContent_message_or_forest
        (JSON_parse : jsstring -> Completion AstData)
        (executed : Completion jsstring) :
  let outcome := analyzeContent JSON_parse executed in
  (shown outcome = []
   \/ exists text, shown outcome = [text] /\ completion outcome = ret ([], []))
  /\ (shown outcome = [] ->
      exists result astData,
        executed = ret result
        /\ JSON_parse result = ret astData
        /\ hasError astData = false
        /\ completion outcome = ret (buildTree astData))
  /\ (forall result nodes errors,
         executed = ret result ->
         JSON_parse result = ret (AstResult nodes errors) ->
         completion outcome = ret ([], [])).
Proof.
  intros outcome. subst outcome. unfold analyzeContent.
  destruct executed as [result|e]; cbn [bind].
  - destruct (truthy (trim result)) eqn:Et.
    + destruct (JSON_parse result) as [astData|e] eqn:Ep; cbn [bind try_catch].
      * destruct (hasError astData) eqn:Eh; cbn [throw ret completion shown].
        -- split; [right; eexists; split; reflexivity|].
           split; [discriminate|].
           intros r nodes errors [= <-] Hp. rewrite Hp in Ep.
           injection Ep as <-. discriminate.
        -- split; [now left|]. split.
           ++ intros _. exists result, astData. auto.
           ++ intros r nodes errors [= <-] Hp. rewrite Hp in Ep.
              now injection Ep as <-.
      * cbn [throw completion shown].
        split; [right; eexists; split; reflexivity|].
        split; [discriminate|].
        intros r nodes errors [= <-] Hp. congruence.
    + cbn [throw completion shown].
      split; [right; eexists; split; reflexivity|].
      split; [discriminate|]. reflexivity.
  - cbn [completion shown].
    split; [right; eexists; split; reflexivity|].
    split; [discriminate|]. reflexivity.
Qed.

End AnalyzerMore.

(** ** extension.ts: from a highlighted node back to the tree *)

Section EditorFacts.

Import Locator Editor.

(** X15.  For a node of the index whose lines and columns are at least 1
    and whose start is not after its end, the highlight command puts the
    cursor at the node's end, and the reveal command then finds, at that
    cursor, a node of the index that contains the node's end and is not
    longer than the node. *)
Theorem highlight_then_reveal (values : list PowerShellAstNode.t)
        (node : PowerShellAstNode.t) :
  In node values ->
  (1 <= PowerShellAstNode.startLine node)%Z ->
  (1 <= PowerShellAstNode.startColumn node)%Z ->
  (1 <= PowerShellAstNode.endLine node)%Z ->
  (1 <= PowerShellAstNode.endColumn node)%Z ->
  startsBefore node (PowerShellAstNode.endLine node)
               (PowerShellAstNode.endColumn node) = true ->
  exists anchor found,
    highlightInEditor node
    = Some (anchor, ((PowerShellAstNode.endLine node - 1)%Z,
                     (PowerShellAstNode.endColumn node - 1)%Z))
    /\ revealNodeForSelection values (PowerShellAstNode.endLine node - 1)
                              (PowerShellAstNode.endColumn node - 1)
       = Some found
    /\ In found values
    /\ containsPosition found (PowerShellAstNode.endLine node)
                        (PowerShellAstNode.endColumn node) = true
    /\ (PowerShellAstNode.textLength found
        <= PowerShellAstNode.textLength node)%Z.
Proof.
  intros Hin Hsl Hsc Hel Hec Hwf.
  assert (Hcontains : containsPosition node (PowerShellAstNode.endLine node)
                                       (PowerShellAstNode.endColumn node) = true).
  { unfold containsPosition, endsAfter. rewrite Hwf, Z.eqb_refl.
    replace (PowerShellAstNode.endColumn node >=? PowerShellAstNode.endColumn node)%Z
      with true by (symmetry; apply Z.geb_le; lia).
    now rewrite orb_true_r. }
  exists ((PowerShellAstNode.startLine node - 1)%Z,
          (PowerShellAstNode.startColumn node - 1)%Z).
  unfold revealNodeForSelection.
  replace (PowerShellAstNode.endLine node - 1 + 1)%Z
    with (PowerShellAstNode.endLine node) by lia.
  replace (PowerShellAstNode.endColumn node - 1 + 1)%Z
    with (PowerShellAstNode.endColumn node) by lia.
  pose proof (scan_smallest (PowerShellAstNode.endLine node)
                            (PowerShellAstNode.endColumn node) values [] None)
    as Hscan.
  cbn [app] in Hscan. fold (locate values (PowerShellAstNode.endLine node)
                                   (PowerShellAstNode.endColumn node)) in Hscan.
  specialize (Hscan (fun n (H : In n []) => match H with end)).
  destruct (locate values _ _) as [found|]; cbn in Hscan.
  - exists found. destruct Hscan as (Hf & Hc & Hmin).
    split; [|split; [reflexivity|split; [exact Hf|split; [exact Hc|]]]].
    + unfold highlightInEditor, Position.
      replace (PowerShellAstNode.startLine node - 1 <? 0)%Z with false
        by (symmetry; apply Z.ltb_ge; lia).
      replace (PowerShellAstNode.startColumn node - 1 <? 0)%Z with false
        by (symmetry; apply Z.ltb_ge; lia).
      replace (PowerShellAstNode.endLine node - 1 <? 0)%Z with false
        by (symmetry; apply Z.ltb_ge; lia).
      replace (PowerShellAstNode.endColumn node - 1 <? 0)%Z with false
        by (symmetry; apply Z.ltb_ge; lia).
      cbn [orb]. unfold Range.
      replace (isBeforeOrEqual _ _) with true; [reflexivity|].
      symmetry. unfold isBeforeOrEqual. cbn [fst snd].
      unfold startsBefore in Hwf.
      apply orb_true_iff in Hwf as [H|H]; apply orb_true_iff.
      * left. apply Z.ltb_lt in H. apply Z.ltb_lt. lia.
      * right. apply andb_true_iff in H as [H1 H2].
        apply Z.eqb_eq in H1. apply Z.leb_le in H2.
        apply andb_true_iff. split; [apply Z.eqb_eq | apply Z.leb_le]; lia.
    + now apply Hmin.
  - rewrite (Hscan node Hin) in Hcontains. discriminate.
Qed.

(** The middle one of the three nested nodes. *)
Lemma highlight_then_reveal_witness :
  exists anchor found,
    highlightInEditor middle = Some (anchor, (4%Z, 0%Z))
    /\ revealNodeForSelection [outer; middle; inner] 4 0 = Some found
    /\ In found [outer; middle; inner]
    /\ containsPosition found 5 1 = true
    /\ (PowerShellAstNode.textLength found <= 40)%Z.
Proof.
  apply (highlight_then_reveal [outer; middle; inner] middle);
    [right; now left | cbn; lia | cbn; lia | cbn; lia | cbn; lia | reflexivity].
Defined.

End EditorFacts.

(** ** Trees *)

Lemma Permutation_filter {A} (f : A -> bool) (l l' : list A) :
  Permutation l l' -> Permutation (filter f l) (filter f l').
Proof.
  induction 1 as [|x l l' _ IH|x y l|l l' l'' _ IH1 _ IH2]; cbn.
  - constructor.
  - destruct (f x); [now constructor | exact IH].
  - destruct (f x), (f y); try reflexivity. constructor.
  - now transitivity (filter f l').
Qed.

Lemma filter_flat_map {A B} (f : B -> bool) (g : A -> list B) (l : list A) :
  filter f (flat_map g l) = flat_map (fun x => filter f (g x)) l.
Proof.
  induction l as [|x l IH]; cbn; [reflexivity|].
  now rewrite filter_app, IH.
Qed.

(** ** extension.ts: the expandAll command *)

Section ExpandAllFacts.

Import ExpandAll.

Lemma bucket_pushAll (k k' : Z) (xs : list Tree) (m : Levels) :
  bucket k (pushAll k' xs m)
  = if (k =? k')%Z then bucket k m ++ xs else bucket k m.
Proof.
  unfold pushAll, bucket at 1.
  destruct (k =? k')%Z eqn:E.
  - apply Z.eqb_eq in E. subst. now rewrite get_set_same.
  - apply Z.eqb_neq in E. now rewrite get_set_other.
Qed.

Lemma bucket_cons (k k1 : Z) (b1 : list Tree) (cl : Levels) :
  bucket k ((k1, b1) :: cl) = if (k =? k1)%Z then b1 else bucket k cl.
Proof. unfold bucket. cbn. now destruct (k =? k1)%Z. Qed.

Lemma keys_pushAll (k k' : Z) (xs : list Tree) (m : Levels) :
  In k (JsMap.keys (pushAll k' xs m)) <-> In k (JsMap.keys m) \/ k = k'.
Proof.
  unfold pushAll. rewrite keys_set.
  destruct (in_dec Z.eq_dec k' (JsMap.keys m)) as [H|H].
  - split; [tauto | intros [H'| ->]; auto].
  - rewrite in_app_iff. cbn. intuition.
Qed.

Lemma values_pushAll (k : Z) (xs : list Tree) (m : Levels) :
  Permutation (concat (JsMap.values (pushAll k xs m)))
              (concat (JsMap.values m) ++ xs).
Proof.
  unfold pushAll, bucket.
  induction m as [|[k' b] m IH]; cbn.
  - now rewrite app_nil_r.
  - destruct (k =? k')%Z eqn:E; cbn.
    + rewrite <- !app_assoc. apply Permutation_app_head, Permutation_app_comm.
    + rewrite <- app_assoc. apply Permutation_app_head. exact IH.
Qed.

Lemma merge_all (cl : Levels) (m : Levels) :
  NoDup (JsMap.keys cl) -> NoDup (JsMap.keys m) ->
  NoDup (JsMap.keys (fold_left merge cl m))
  /\ (forall k, bucket k (fold_left merge cl m) = bucket k m ++ bucket k cl)
  /\ (forall k, In k (JsMap.keys (fold_left merge cl m))
                <-> In k (JsMap.keys m) \/ In k (JsMap.keys cl))
  /\ Permutation (concat (JsMap.values (fold_left merge cl m)))
                 (concat (JsMap.values m) ++ concat (JsMap.values cl)).
Proof.
  revert m. induction cl as [|[k1 b1] cl IH]; intros m Hcl Hm; cbn [fold_left].
  - cbn. split; [exact Hm|]. split; [intros; now rewrite app_nil_r|].
    split; [tauto | now rewrite app_nil_r].
  - cbn in Hcl. inversion Hcl as [|? ? Hk1 Hcl']; subst.
    destruct (IH (merge m (k1, b1)) Hcl') as (H1 & H2 & H3 & H4).
    { unfold merge, pushAll. now apply NoDup_keys_set. }
    split; [exact H1|]. split; [|split].
    + intros k. rewrite H2. unfold merge. cbn [fst snd].
      rewrite bucket_pushAll, bucket_cons.
      destruct (k =? k1)%Z eqn:E.
      * apply Z.eqb_eq in E. subst k.
        assert (Hb : bucket k1 cl = []).
        { unfold bucket. apply get_absent_keys in Hk1. now rewrite Hk1. }
        now rewrite Hb, app_nil_r.
      * reflexivity.
    + intros k. rewrite H3. unfold merge. cbn [fst snd].
      rewrite keys_pushAll. cbn. intuition.
    + rewrite H4. unfold merge. cbn [fst snd JsMap.values map concat].
      rewrite values_pushAll, <- !app_assoc. reflexivity.
Qed.

Lemma visit_unfold (node : PowerShellAstNode.t) (cs : list Tree) (level : Z)
      (m : Levels) :
  visit (TreeNode node cs) level m
  = fold_left merge
      (fold_left (fun m c => visit c (level + 1)%Z m) cs [])
      (pushAll level [TreeNode node cs] m).
Proof. destruct cs; reflexivity. Qed.

Lemma visit_list (cs : list Tree) (level : Z) (m : Levels) :
  Forall visited cs ->
  NoDup (JsMap.keys m) ->
  let m' := fold_left (fun m c => visit c level m) cs m in
  NoDup (JsMap.keys m')
  /\ (forall d : nat,
         bucket (level + Z.of_nat d) m'
         = bucket (level + Z.of_nat d) m ++ flat_map (atDepth d) cs)
  /\ (forall k, (k < level)%Z -> bucket k m' = bucket k m)
  /\ (forall k, In k (JsMap.keys m') -> In k (JsMap.keys m) \/ (level <= k)%Z)
  /\ Permutation (concat (JsMap.values m'))
                 (concat (JsMap.values m) ++ flat_map subtrees cs).
Proof.
  intros Hcs. revert m. induction Hcs as [|c cs Hc _ IH]; intros m Hm.
  - cbn. split; [exact Hm|]. split; [intros; now rewrite app_nil_r|].
    split; [reflexivity|]. split; [tauto | now rewrite app_nil_r].
  - cbn [fold_left]. destruct (Hc level m Hm) as (C1 & C2 & C3 & C4 & C5).
    destruct (IH (visit c level m) C1) as (H1 & H2 & H3 & H4 & H5).
    cbv zeta. split; [exact H1|]. split; [|split; [|split]].
    + intros d. rewrite H2, C2. cbn [flat_map]. now rewrite app_assoc.
    + intros k Hk. now rewrite H3, C3.
    + intros k Hk. destruct (H4 k Hk) as [H|H]; auto.
    + rewrite H5, C5. cbn [flat_map]. now rewrite <- !app_assoc.
Qed.

Lemma visit_visited (t : Tree) : visited t.
Proof.
  induction t as [node cs IH] using Tree_forall_ind.
  intros level m Hm. cbv zeta. rewrite visit_unfold.
  set (m1 := pushAll level [TreeNode node cs] m).
  assert (Hm1 : NoDup (JsMap.keys m1))
    by (unfold m1, pushAll; now apply NoDup_keys_set).
  destruct (visit_list cs (level + 1)%Z [] IH (NoDup_nil _))
    as (L1 & L2 & L3 & L4 & L5).
  cbv zeta in L1, L2, L3, L4, L5.
  set (cl := fold_left (fun m c => visit c (level + 1)%Z m) cs []) in *.
  destruct (merge_all cl m1 L1 Hm1) as (M1 & M2 & M3 & M4).
  split; [exact M1|]. split; [|split; [|split]].
  - intros d. rewrite M2. unfold m1. rewrite bucket_pushAll.
    destruct d as [|d].
    + replace (level + Z.of_nat 0)%Z with level by lia.
      rewrite Z.eqb_refl, (L3 level) by lia. cbn. now rewrite app_nil_r.
    + replace (level + Z.of_nat (S d) =? level)%Z with false
        by (symmetry; apply Z.eqb_neq; lia).
      replace (level + Z.of_nat (S d))%Z with (level + 1 + Z.of_nat d)%Z by lia.
      rewrite L2. reflexivity.
  - intros k Hk. rewrite M2. unfold m1. rewrite bucket_pushAll.
    replace (k =? level)%Z with false by (symmetry; apply Z.eqb_neq; lia).
    rewrite (L3 k) by lia. cbn. now rewrite app_nil_r.
  - intros k Hk. apply M3 in Hk as [Hk|Hk].
    + unfold m1 in Hk. apply keys_pushAll in Hk as [Hk| ->]; [now left|].
      right. lia.
    + destruct (L4 k Hk) as [[]|H]. right. lia.
  - rewrite M4. unfold m1. rewrite values_pushAll, L5. cbn.
    now rewrite <- app_assoc.
Qed.

Lemma collectNodesByLevel_spec (forest : list Tree) :
  let m := collectNodesByLevel forest 0 in
  NoDup (JsMap.keys m)
  /\ (forall d : nat, bucket (Z.of_nat d) m = flat_map (atDepth d) forest)
  /\ (forall k, In k (JsMap.keys m) -> (0 <= k)%Z)
  /\ Permutation (concat (JsMap.values m)) (flat_map subtrees forest).
Proof.
  assert (Hall : Forall visited forest)
    by (apply Forall_forall; intros t _; apply visit_visited).
  destruct (visit_list forest 0 [] Hall (NoDup_nil _))
    as (H1 & H2 & _ & H4 & H5).
  cbv zeta. split; [exact H1|]. split; [exact H2|]. split; [|exact H5].
  intros k Hk. destruct (H4 k Hk) as [[]|H]. exact H.
Qed.

(** X16.  The levels [collectNodesByLevel] returns for a forest hold,
    under level [d], the subtrees [d] levels below the roots, left to
    right; no level occurs twice; and together the levels hold every node
    of the forest exactly once. *)
Theorem levels_partition_the_forest (forest : list Tree) :
  let nodesByLevel := collectNodesByLevel forest 0 in
  NoDup (JsMap.keys nodesByLevel)
  /\ (forall d : nat,
         bucket (Z.of_nat d) nodesByLevel = flat_map (atDepth d) forest)
  /\ Permutation (concat (JsMap.values nodesByLevel))
                 (flat_map subtrees forest).
Proof.
  destruct (collectNodesByLevel_spec forest) as (H1 & H2 & _ & H4).
  cbv zeta. auto.
Qed.

Lemma fold_max_bounds (ks : list Z) (k0 : Z) :
  (k0 <= fold_left Z.max ks k0)%Z
  /\ forall k, In k ks -> (k <= fold_left Z.max ks k0)%Z.
Proof.
  revert k0. induction ks as [|a ks IH]; intros k0; cbn [fold_left].
  - split; [lia | intros k []].
  - destruct (IH (Z.max k0 a)) as [H1 H2]. split; [lia|].
    intros k [<-|Hk]; [lia | now apply H2].
Qed.

Lemma key_in_levels (m : Levels) (k : Z) :
  In k (JsMap.keys m) -> (0 <= k)%Z -> In k (levelsUpTo (maxLevel m)).
Proof.
  unfold maxLevel. destruct (JsMap.keys m) as [|k0 ks]; [intros []|].
  intros Hk Hpos. cbn [levelsUpTo].
  destruct (fold_max_bounds ks k0) as [H1 H2].
  assert (Hle : (k <= fold_left Z.max ks k0)%Z)
    by (destruct Hk as [<-|Hk]; [exact H1 | now apply H2]).
  apply in_map_iff. exists (Z.to_nat k). split; [lia|].
  apply in_seq. lia.
Qed.

Lemma NoDup_levelsUpTo (mx : option Z) : NoDup (levelsUpTo mx).
Proof.
  destruct mx as [mx|]; cbn; [|constructor].
  generalize (Z.to_nat (mx + 1)) 0. intros n.
  induction n as [|n IH]; intros start; cbn; constructor.
  - rewrite in_map_iff. intros (x & Hx & Hin). apply in_seq in Hin. lia.
  - apply IH.
Qed.

Lemma flat_map_ext_in {A B} (f g : A -> list B) (l : list A) :
  (forall x, In x l -> f x = g x) -> flat_map f l = flat_map g l.
Proof.
  induction l as [|x l IH]; intros H; cbn; [reflexivity|].
  rewrite (H x) by now left. f_equal. apply IH. intros y Hy. apply H. now right.
Qed.

(** The arrays found level by level are the arrays of the map. *)
Lemma buckets_by_level (m : Levels) (ls : list Z) :
  NoDup (JsMap.keys m) -> NoDup ls ->
  (forall k, In k (JsMap.keys m) -> In k ls) ->
  Permutation (flat_map (fun l => bucket l m) ls) (concat (JsMap.values m)).
Proof.
  revert ls. induction m as [|[k b] m IH]; intros ls Hm Hls Hin.
  - cbn. induction ls as [|l ls IHls]; cbn; [constructor|].
    apply IHls; [now inversion Hls | intros ? []].
  - cbn in Hm. inversion Hm as [|? ? Hk Hm']; subst.
    destruct (in_split k ls) as (l1 & l2 & ->); [apply Hin; now left|].
    rewrite <- (Permutation_flat_map _ (Permutation_middle l1 l2 k)).
    cbn [flat_map JsMap.values map concat].
    rewrite bucket_cons, Z.eqb_refl. apply Permutation_app_head.
    pose proof (NoDup_remove_2 _ _ _ Hls) as Hk'.
    rewrite (flat_map_ext_in (fun l => bucket l ((k, b) :: m))
                             (fun l => bucket l m)).
    + apply IH; [exact Hm' | eapply NoDup_remove_1, Hls |].
      intros k' Hk2.
      assert (Hin2 : In k' (l1 ++ k :: l2)) by (apply Hin; now right).
      apply in_app_or in Hin2 as [H|[<-|H]];
        [apply in_or_app; now left | contradiction | apply in_or_app; now right].
    + intros l Hl. rewrite bucket_cons.
      destruct (l =? k)%Z eqn:E; [|reflexivity].
      apply Z.eqb_eq in E. subst. contradiction.
Qed.

Lemma flat_map_map {A B C} (f : B -> list C) (g : A -> B) (l : list A) :
  flat_map f (map g l) = flat_map (fun x => f (g x)) l.
Proof. induction l as [|x l IH]; cbn; [reflexivity | now rewrite IH]. Qed.

(** X17.  The expand-all command has the tree view reveal the nodes
    that have children, and only those, each exactly once, level by level:
    first the roots, then the nodes one level down, and so on, so that a
    node is revealed after its parent. *)
Theorem expandAll_reveals_level_by_level (forest : list Tree) :
  (exists n,
      expandAll forest
      = flat_map (fun d => filter hasChildren (flat_map (atDepth d) forest))
                 (seq 0 n))
  /\ Permutation (expandAll forest)
                 (filter hasChildren (flat_map subtrees forest)).
Proof.
  destruct (collectNodesByLevel_spec forest) as (H1 & H2 & H3 & H4).
  cbv zeta in *. unfold expandAll. cbv zeta.
  set (m := collectNodesByLevel forest 0) in *.
  split.
  - destruct (maxLevel m) as [mx|]; cbn [levelsUpTo].
    + exists (Z.to_nat (mx + 1)). rewrite flat_map_map.
      apply flat_map_ext_in. intros d _. now rewrite H2.
    + now exists 0.
  - rewrite <- (filter_flat_map hasChildren (fun level => bucket level m)).
    apply Permutation_filter. rewrite <- H4.
    apply buckets_by_level; [exact H1 | apply NoDup_levelsUpTo |].
    intros k Hk. apply key_in_levels; [exact Hk | now apply H3].
Qed.

End ExpandAllFacts.

(** ** extension.ts: the index of AstState and the tree data provider *)

Section AstStateFacts.

Import TreeBuilder AstState.

Lemma preorder_subtrees (t : Tree) : preorder t = map root_of (subtrees t).
Proof.
  induction t as [node cs IH] using Tree_forall_ind.
  cbn. f_equal. induction IH as [|c cs Hc _ IHcs]; cbn; [reflexivity|].
  now rewrite map_app, Hc, IHcs.
Qed.

Lemma flatten_subtrees (forest : list Tree) :
  flatten forest = map root_of (flat_map subtrees forest).
Proof.
  unfold flatten. induction forest as [|t forest IH]; cbn; [reflexivity|].
  now rewrite map_app, preorder_subtrees, IH.
Qed.

Lemma collectNode_subtrees (t : Tree) (m : JsMap.t Tree) :
  collectNode t m
  = fold_left (fun m s => JsMap.set (hashOf s) s m) (subtrees t) m.
Proof.
  revert m. induction t as [node cs IH] using Tree_forall_ind. intros m.
  cbn [subtrees fold_left].
  change (JsMap.set (hashOf (TreeNode node cs)) (TreeNode node cs) m)
    with (JsMap.set (PowerShellAstNode.hashCode node) (TreeNode node cs) m).
  transitivity (fold_left (fun m c => collectNode c m) cs
                          (JsMap.set (PowerShellAstNode.hashCode node)
                                     (TreeNode node cs) m)).
  { destruct cs; reflexivity. }
  generalize (JsMap.set (PowerShellAstNode.hashCode node) (TreeNode node cs) m).
  induction IH as [|c cs' Hc _ IHcs]; intros m'; cbn [fold_left flat_map].
  - reflexivity.
  - now rewrite fold_left_app, Hc, IHcs.
Qed.

Lemma collectNodes_subtrees (forest : list Tree) (m : JsMap.t Tree) :
  collectNodes forest m
  = fold_left (fun m s => JsMap.set (hashOf s) s m) (flat_map subtrees forest) m.
Proof.
  unfold collectNodes. revert m.
  induction forest as [|t forest IH]; intros m; cbn [fold_left flat_map].
  - reflexivity.
  - now rewrite fold_left_app, collectNode_subtrees, IH.
Qed.

Lemma index_of_distinct (l : list Tree) (acc : JsMap.t Tree) :
  NoDup (map hashOf l) ->
  (forall s, In s l -> JsMap.get (hashOf s) acc = None) ->
  fold_left (fun m s => JsMap.set (hashOf s) s m) l acc = acc ++ map entryOf l.
Proof.
  revert acc. induction l as [|s l IH]; intros acc Hnd Hacc; cbn.
  - now rewrite app_nil_r.
  - inversion Hnd as [|? ? Hs Hnd']; subst.
    rewrite set_absent by (apply Hacc; now left).
    rewrite IH; [now rewrite <- app_assoc | exact Hnd' |].
    intros s' Hs'. rewrite get_app_absent by (apply Hacc; now right).
    cbn. destruct (hashOf s' =? hashOf s)%Z eqn:E; [|reflexivity].
    apply Z.eqb_eq in E. exfalso. apply Hs. rewrite <- E. now apply in_map.
Qed.

Lemma get_entryOf (l : list Tree) (s : Tree) :
  NoDup (map hashOf l) -> In s l ->
  JsMap.get (hashOf s) (map entryOf l) = Some s.
Proof.
  induction l as [|x l IH]; cbn; [contradiction|].
  intros Hnd Hin. inversion Hnd as [|? ? Hx Hnd']; subst.
  destruct (hashOf s =? hashOf x)%Z eqn:E.
  - apply Z.eqb_eq in E. destruct Hin as [->|Hin]; [reflexivity|].
    exfalso. apply Hx. rewrite <- E. now apply in_map.
  - destruct Hin as [->|Hin]; [now rewrite Z.eqb_refl in E | now apply IH].
Qed.

Lemma sequence_some {A B} (g : A -> option B) (l : list A) (ts : list B) :
  sequence (map g l) = Some ts -> Forall2 (fun x t => g x = Some t) l ts.
Proof.
  revert ts. induction l as [|x l IH]; intros ts; cbn.
  - intros [= <-]. constructor.
  - destruct (g x) as [t|] eqn:E; [|discriminate].
    destruct (sequence (map g l)) as [r|]; [|discriminate].
    intros [= <-]. constructor; [exact E | now apply IH].
Qed.

Lemma Forall2_in_right {A B} (R : A -> B -> Prop) (l : list A) (l' : list B) :
  Forall2 R l l' -> forall y, In y l' -> exists x, In x l /\ R x y.
Proof.
  induction 1 as [|x y l l' Hxy _ IH]; intros z Hz; [destruct Hz|].
  destruct Hz as [<-|Hz].
  - exists x. split; [now left | exact Hxy].
  - destruct (IH z Hz) as (x' & Hx' & Hr). exists x'. split; [now right | exact Hr].
Qed.

Lemma readTree_linked (L : list FlatAstNode.t) (f : nat) (k : Z) (t : Tree) :
  NoDup (hashes L) ->
  readTree f (linkedStore L (hashes L)) k = Some t ->
  hashOf t = k
  /\ (exists n, In n L /\ root_of t = linkedNode L (hashes L) n)
  /\ linked t.
Proof.
  intros Hnd. revert k t. induction f as [|f IH]; intros k t; cbn; [discriminate|].
  destruct (JsMap.get k (linkedStore L (hashes L))) as [node|] eqn:Eg;
    [|discriminate].
  destruct (sequence _) as [cs|] eqn:Es; [|discriminate].
  intros [= <-].
  apply get_In, In_linkedStore in Eg as (n & Hn & Hk & ->).
  apply sequence_some in Es.
  change (PowerShellAstNode.children (linkedNode L (hashes L) n))
    with (childrenAmong L (hashes L) (FlatAstNode.hashCode n)) in Es.
  split; [exact Hk|]. split; [now exists n|].
  assert (Hkids : forall c, In c cs ->
            PowerShellAstNode.parentHashCode (root_of c) = Some k /\ linked c).
  { intros c Hc.
    destruct (Forall2_in_right _ _ _ Es c Hc) as (ck & Hck & Hread).
    destruct (IH ck c Hread) as (Hh & (nc & Hnc & Hroot) & Hl).
    split; [|exact Hl].
    rewrite Hroot.
    change (PowerShellAstNode.parentHashCode (linkedNode L (hashes L) nc))
      with (FlatAstNode.parentHashCode nc).
    apply In_childrenAmong in Hck as [_ Hpar].
    assert (Hnck : FlatAstNode.hashCode nc = ck).
    { unfold hashOf in Hh. now rewrite Hroot in Hh. }
    rewrite <- Hnck, (parentOf_node L nc Hnd Hnc) in Hpar.
    injection Hpar as ->. now rewrite Hk. }
  intros s Hs c Hc. cbn [subtrees] in Hs. destruct Hs as [<-|Hs].
  - cbn [children_of] in Hc. unfold hashOf. cbn [root_of].
    change (PowerShellAstNode.hashCode (linkedNode L (hashes L) n))
      with (FlatAstNode.hashCode n).
    rewrite Hk. now apply Hkids.
  - apply in_flat_map in Hs as (c' & Hc' & Hs).
    now apply (proj2 (Hkids c' Hc')).
Qed.

Lemma subtrees_self (t : Tree) : In t (subtrees t).
Proof. destruct t. now left. Qed.

Lemma subtrees_cases (t s : Tree) :
  In s (subtrees t) ->
  s = t \/ exists p, In p (subtrees t) /\ In s (children_of p).
Proof.
  revert s. induction t as [node cs IH] using Tree_forall_ind.
  intros s [<-|Hs]; [now left|]. right.
  apply in_flat_map in Hs as (c & Hc & Hs).
  rewrite Forall_forall in IH.
  destruct (IH c Hc s Hs) as [->|(p & Hp & Hsp)].
  - exists (TreeNode node cs). split; [now left | exact Hc].
  - exists p. split; [|exact Hsp].
    right. apply in_flat_map. now exists c.
Qed.

Lemma values_entries (l : list Tree) : JsMap.values (map entryOf l) = l.
Proof.
  unfold JsMap.values. rewrite map_map. cbn. apply map_id.
Qed.

(** X18.  For a list with unique hashes and without cycles of parent
    links, after [setAstData] with the forest the builder returned: the
    index holds the nodes of the forest, in pre-order, and so every node of
    the list; the first root is selected; [getParent] of a root is null;
    [getParent] of every child that [getChildren] gives for an indexed node
    is that node; and every indexed node is a root or among the children of
    an indexed node. *)
Theorem tree_provider_consistent (L : list FlatAstNode.t) (fuel : nat)
        (filePath : option jsstring) (s0 : AstState.t) :
  uniqueHashes L = true ->
  acyclic L = true ->
  length L <= fuel ->
  exists forest,
    builtForest fuel L = Some forest
    /\ let st := fst (setAstData forest filePath s0) in
       indexed st = flatten forest
       /\ currentNode st = hd_error forest
       /\ (forall n, In n L ->
                     exists t,
                       JsMap.get (FlatAstNode.hashCode n) (nodeMap st) = Some t
                       /\ unlinked (root_of t) = treeNode n)
       /\ (forall r, In r (getChildren st None) -> getParent st r = None)
       /\ (forall p, In p (JsMap.values (nodeMap st)) ->
                     forall c, In c (getChildren st (Some p)) ->
                               getParent st c = Some p)
       /\ (forall t, In t (JsMap.values (nodeMap st)) ->
                     In t (getChildren st None)
                     \/ exists p, In p (JsMap.values (nodeMap st))
                                  /\ In t (getChildren st (Some p))).
Proof.
  intros Hu Ha Hfuel. pose proof Hu as Hnd. apply distinct_NoDup in Hnd.
  destruct (built_forest_spec L Hnd Ha fuel Hfuel) as (forest & Hb & Hperm & Hr).
  exists forest. split; [exact Hb|].
  (* the trees of the forest are linked *)
  assert (Hlinked : forall r, In r forest -> linked r).
  { unfold builtForest in Hb. rewrite (build_spec L Hu) in Hb.
    unfold readForest in Hb. apply sequence_some in Hb.
    intros r Hin. destruct (Forall2_in_right _ _ _ Hb r Hin) as (k & _ & Hread).
    now apply (readTree_linked L fuel k r Hnd). }
  (* the hashes of the forest are those of the list, each once *)
  assert (Hhash : Permutation (map hashOf (flat_map subtrees forest)) (hashes L)).
  { apply (Permutation_map PowerShellAstNode.hashCode) in Hperm.
    rewrite !map_map in Hperm. rewrite flatten_subtrees, map_map in Hperm.
    exact Hperm. }
  assert (Hdistinct : NoDup (map hashOf (flat_map subtrees forest)))
    by (apply (Permutation_NoDup (Permutation_sym Hhash)), Hnd).
  assert (Hidx : collectNodes forest [] = map entryOf (flat_map subtrees forest)).
  { rewrite collectNodes_subtrees, index_of_distinct; auto. }
  cbv zeta. unfold setAstData, setSelection. cbn [fst].
  unfold indexed, getParent, getChildren. cbn [nodeMap astData currentNode].
  rewrite Hidx, values_entries.
  split; [now rewrite flatten_subtrees|]. split; [reflexivity|].
  split; [|split; [|split]].
  - intros n Hn.
    assert (Hin : In (treeNode n) (map unlinked (flatten forest))).
    { apply (Permutation_in _ (Permutation_sym Hperm)). now apply in_map. }
    rewrite flatten_subtrees, map_map in Hin.
    apply in_map_iff in Hin as (t & Ht & Hin).
    exists t. split; [|exact Ht].
    replace (FlatAstNode.hashCode n) with (hashOf t).
    + now apply get_entryOf.
    + unfold hashOf.
      change (FlatAstNode.hashCode n)
        with (PowerShellAstNode.hashCode (treeNode n)).
      now rewrite <- Ht.
  - intros r Hin.
    assert (Hroot : In (unlinked (root_of r))
                       (map treeNode (filter isRoot L))).
    { rewrite <- Hr. apply (in_map (fun t => unlinked (root_of t))), Hin. }
    apply in_map_iff in Hroot as (n & Hn & Hnin).
    apply filter_In in Hnin as [_ Hnroot].
    change (PowerShellAstNode.parentHashCode (root_of r))
      with (PowerShellAstNode.parentHashCode (unlinked (root_of r))).
    rewrite <- Hn. cbn. unfold isRoot in Hnroot.
    now destruct (FlatAstNode.parentHashCode n).
  - intros p Hp c Hc.
    apply in_flat_map in Hp as (r & Hrin & Hp).
    rewrite (Hlinked r Hrin p Hp c Hc).
    apply get_entryOf; [exact Hdistinct|].
    apply in_flat_map. now exists r.
  - intros t Ht. apply in_flat_map in Ht as (r & Hrin & Ht).
    destruct (subtrees_cases r t Ht) as [->|(p & Hp & Htp)]; [now left|].
    right. exists p. split; [|exact Htp].
    apply in_flat_map. now exists r.
Qed.

(** The small tree: its four nodes are indexed, and node 13 has node 12
    as parent. *)
Lemma tree_provider_consistent_witness :
  uniqueHashes smallTree = true
  /\ acyclic smallTree = true
  /\ exists forest,
      builtForest 4 smallTree = Some forest
      /\ map PowerShellAstNode.hashCode
             (indexed (fst (setAstData forest None AstState.initial)))
         = [10%Z; 11%Z; 12%Z; 13%Z].
Proof.
  assert (Hu : uniqueHashes smallTree = true) by reflexivity.
  assert (Ha : acyclic smallTree = true) by reflexivity.
  split; [exact Hu|]. split; [exact Ha|].
  destruct (tree_provider_consistent smallTree 4 None AstState.initial Hu Ha)
    as (forest & Hb & Hidx & _); [cbn; lia|].
  exists forest. split; [exact Hb|].
  cbv zeta in Hidx. rewrite Hidx.
  assert (Hsome : builtForest 4 smallTree
                  = Some match builtForest 4 smallTree with
                         | Some f => f
                         | None => []
                         end) by reflexivity.
  rewrite Hsome in Hb. injection Hb as <-. reflexivity.
Defined.

End AstStateFacts.


(** ** extension.ts: DocStore *)

Section DocStoreFacts.

Import DocStore.

Lemma eqb_eq (a b : jsstring) : eqb a b = true <-> a = b.
Proof.
  revert b. induction a as [|x a IH]; intros [|y b]; cbn;
    try (split; [discriminate | congruence]); [tauto|].
  rewrite andb_true_iff, N.eqb_eq, IH. split.
  - intros [-> ->]. reflexivity.
  - intros [= -> ->]. auto.
Qed.

Lemma eqb_refl (a : jsstring) : eqb a a = true.
Proof. now apply eqb_eq. Qed.

Lemma get_set_same_doc (k : jsstring) (v : AstDocEntry) (m : DocStore.t) :
  get k (set k v m) = Some v.
Proof.
  induction m as [|[k' v'] m IH]; cbn.
  - now rewrite eqb_refl.
  - destruct (eqb k k') eqn:E; cbn; rewrite E; [reflexivity | exact IH].
Qed.

Lemma get_set_other_doc (k k' : jsstring) (v : AstDocEntry) (m : DocStore.t) :
  eqb k' k = false -> get k' (set k v m) = get k' m.
Proof.
  intros Hne. induction m as [|[k2 v2] m IH]; cbn.
  - now rewrite Hne.
  - destruct (eqb k k2) eqn:E; cbn.
    + apply eqb_eq in E. subst k2. now rewrite Hne.
    + now rewrite IH.
Qed.

Lemma get_store (m : DocStore.t) (entry : option AstDocEntry) (name : jsstring) :
  get name (store m entry) = if named name entry then entry else get name m.
Proof.
  unfold store, named. destruct entry as [e|]; [|reflexivity].
  destruct (Name e) as [[|c n]|]; try reflexivity.
  destruct (eqb (c :: n) name) eqn:E.
  - apply eqb_eq in E. subst name. apply get_set_same_doc.
  - apply get_set_other_doc.
    destruct (eqb name (c :: n)) eqn:E'; [|reflexivity].
    apply eqb_eq in E'. subst name. now rewrite eqb_refl in E.
Qed.

Lemma get_load (data : list (option AstDocEntry)) (m : DocStore.t)
      (name : jsstring) :
  get name (fold_left store data m)
  = match find (named name) (rev data) with
    | Some entry => entry
    | None => get name m
    end.
Proof.
  revert m. induction data as [|entry data IH]; intros m; cbn [fold_left rev].
  - reflexivity.
  - rewrite IH, find_app. cbn [find].
    destruct (find (named name) (rev data)); [reflexivity|].
    rewrite get_store. now destruct (named name entry).
Qed.

(** X19.  After a document was loaded, whatever the store held before,
    a type name is looked up in the last entry of the document that has
    that name; entries that are [null] or have no name or an empty name are
    passed over; and a name no entry has is not found. *)
Theorem docstore_last_entry_wins (data : list (option AstDocEntry))
        (before : DocStore.t) (typeName : jsstring) :
  let byType := loadFromFileSync (Entries data) before in
  get typeName byType
  = match find (named typeName) (rev data) with
    | Some entry => entry
    | None => None
    end.
Proof. cbv zeta. unfold loadFromFileSync. now rewrite get_load. Qed.

Lemma load_ownNames (file : FileContent) (m : DocStore.t) :
  ownNames m -> ownNames (loadFromFileSync file m).
Proof.
  intros Hm. destruct file as [| | |data]; cbn; auto;
    try (intros name e; discriminate).
  intros name e. rewrite get_load. cbn [get].
  destruct (find (named name) (rev data)) as [entry|] eqn:E; [|discriminate].
  intros ->. apply find_some in E as [_ E]. unfold named in E.
  destruct (Name e) as [[|c n]|]; try discriminate.
  apply eqb_eq in E. subst name. split; [reflexivity | discriminate].
Qed.

(** X20.  However often and with whatever files the store was loaded,
    the display name it gives for a type name is that type name, or nothing:
    the type shown by the properties view is always the type of the node
    itself. *)
Theorem docstore_display_name_is_type_name (files : list FileContent)
        (type : jsstring) :
  let byType := fold_left (fun m file => loadFromFileSync file m) files [] in
  (getDisplayTypeName byType type = None
   \/ getDisplayTypeName byType type = Some type)
  /\ displayType byType type = type.
Proof.
  cbv zeta.
  assert (H : ownNames (fold_left (fun m file => loadFromFileSync file m) files [])).
  { assert (H0 : ownNames []) by (intros name e; discriminate).
    revert H0. generalize (@nil (jsstring * AstDocEntry)).
    induction files as [|file files IH]; intros m Hm; cbn; [exact Hm|].
    apply IH. now apply load_ownNames. }
  unfold displayType, getDisplayTypeName.
  destruct (get type _) as [e|] eqn:E; [|auto].
  destruct (H type e E) as [-> Hne].
  split; [now right|]. now destruct type.
Qed.

End DocStoreFacts.


(** ** PowerShellRunner.ts: what is settled *)

Section RunnerSettled.

Import JsString Runner RunnerTrace.

Lemma answer_tidy (data error : jsstring) : tidy (answer data error).
Proof.
  unfold answer, tidy.
  destruct (isBlank error) eqn:E; cbn [negb andb]; [apply trim_trimmed|].
  destruct (isBlank data); [now apply isBlank_false | apply trim_trimmed].
Qed.

Lemma resolveCurrentCommand_settles (st : State) :
  settles st (resolveCurrentCommand st).
Proof.
  destruct st as [r w].
  destruct (pendingCallbacks r) as [|h rest] eqn:E.
  - left. unfold resolveCurrentCommand. now rewrite E.
  - right. rewrite (resolveCurrentCommand_answer r w h rest E).
    exists h, (answer (currentData r) (currentError r)).
    split; [reflexivity | apply answer_tidy].
Qed.

Lemma rejectCurrentCommand_settles (why : Reason) (st : State) :
  (forall text, why <> StderrText text) ->
  settles st (rejectCurrentCommand why st).
Proof.
  intros Hwhy. destruct st as [r w]. unfold rejectCurrentCommand.
  destruct (pendingCallbacks r) as [|h rest]; [now left|].
  right. exists h, (Rejected why). split; [reflexivity|].
  destruct why; cbn; auto. now destruct (Hwhy text).
Qed.

Lemma step_settles (st : State) (e : Event) : settles st (step st e).
Proof.
  destruct e; cbn [step].
  - destruct st as [r w]. unfold invoke, new_promise, startProcess, new_child.
    destruct (isDisposed r) eqn:Ed, (process r) as [c|] eqn:Ep, sp, writeOk;
      cbn; rewrite ?Ep; cbn;
      try (now left);
      try (right; eexists; eexists; split; [reflexivity | exact I]);
      destruct (pendingCallbacks r ++ [promises w]) as [|h rest];
      first [ now left
            | right; eexists; eexists; split; [reflexivity | exact I] ].
  - destruct st as [r w]. unfold onStdoutData.
    destruct (includes END_OF_COMMAND chunk); [|now left].
    pose proof (resolveCurrentCommand_settles
                  (set_currentData
                     (currentData r ++ nth 0 (split END_OF_COMMAND chunk) []) r, w))
      as H.
    destruct (resolveCurrentCommand _) as [r2 w2].
    destruct (_ && _); exact H.
  - destruct st as [r w]. now left.
  - apply rejectCurrentCommand_settles. discriminate.
  - destruct st as [r w]. unfold onExit.
    apply (rejectCurrentCommand_settles _ (set_process None r, w)). discriminate.
  - destruct st as [r w]. left. unfold dispose. cbn. now destruct (process r).
Qed.

(** X21.  Over any calls and events, from any state: what is settled
    stays settled, unchanged and in place; at most one promise is settled
    per call or event; every value a promise is resolved with has no white
    space at either end; and a rejection with the text of standard error
    carries a text that is not blank. *)
Theorem settlements_are_final_and_tidy (st : State) (es : list Event) :
  exists later,
    settled (snd (run st es)) = settled (snd st) ++ later
    /\ length later <= length es
    /\ Forall (fun entry => tidy (snd entry)) later.
Proof.
  revert st. induction es as [|e es IH]; intros st; cbn.
  - exists []. rewrite app_nil_r. repeat split; auto.
  - destruct (IH (step st e)) as (later & Hl & Hlen & Ht).
    fold (run (step st e) es). rewrite Hl.
    destruct (step_settles st e) as [->|(p & o & -> & Ho)].
    + exists later. repeat split; auto.
    + exists ((p, o) :: later). rewrite <- app_assoc. cbn.
      repeat split; [lia|]. now constructor.
Qed.

End RunnerSettled.


(** ** extension.ts: which of several smallest nodes is found *)

Section LocatorTies.

Import Locator.

Lemma visit_last_smallest (line column : Z) (seen : list PowerShellAstNode.t)
      (found : option PowerShellAstNode.t) (node : PowerShellAstNode.t) :
  last_smallest_of line column seen found ->
  last_smallest_of line column (seen ++ [node]) (visit line column found node).
Proof.
  intros Inv. rewrite visit_contains.
  destruct (containsPosition node line column) eqn:C.
  - destruct found as [f|]; cbn in Inv.
    + destruct Inv as (before & after & -> & Hc & Hb & Ha).
      destruct (PowerShellAstNode.textLength node
                <=? PowerShellAstNode.textLength f)%Z eqn:E; cbn.
      * apply Z.leb_le in E. exists (before ++ f :: after), [].
        split; [reflexivity|]. split; [exact C|]. split; [|intros ? []].
        intros n Hn Hcn. apply in_app_or in Hn as [Hn|[<-|Hn]].
        -- specialize (Hb n Hn Hcn). lia.
        -- exact E.
        -- specialize (Ha n Hn Hcn). lia.
      * apply Z.leb_gt in E. exists before, (after ++ [node]).
        split; [now rewrite <- app_assoc|]. split; [exact Hc|].
        split; [exact Hb|].
        intros n Hn Hcn. apply in_app_or in Hn as [Hn|[<-|[]]];
          [now apply Ha | exact E].
    + cbn. exists seen, []. split; [reflexivity|]. split; [exact C|].
      split; [|intros ? []].
      intros n Hn Hcn. rewrite (Inv n Hn) in Hcn. discriminate.
  - destruct found as [f|]; cbn in *.
    + destruct Inv as (before & after & -> & Hc & Hb & Ha).
      exists before, (after ++ [node]).
      split; [now rewrite <- app_assoc|]. split; [exact Hc|].
      split; [exact Hb|].
      intros n Hn Hcn. apply in_app_or in Hn as [Hn|[<-|[]]];
        [now apply Ha | congruence].
    + intros n Hn. apply in_app_or in Hn as [Hn|[<-|[]]];
        [now apply Inv | exact C].
Qed.

Lemma scan_last_smallest (line column : Z)
      (values seen : list PowerShellAstNode.t)
      (found : option PowerShellAstNode.t) :
  last_smallest_of line column seen found ->
  last_smallest_of line column (seen ++ values)
                   (fold_left (visit line column) values found).
Proof.
  revert seen found. induction values as [|node values IH]; intros seen found Inv.
  - now rewrite app_nil_r.
  - cbn [fold_left].
    replace (seen ++ node :: values) with ((seen ++ [node]) ++ values)
      by (now rewrite <- app_assoc).
    apply IH, visit_last_smallest, Inv.
Qed.

(** X22.  Among several nodes of the same smallest length that contain
    the position, the locator returns the one that comes last in the index:
    no node before the one returned that contains the position is shorter,
    and every node after it that contains the position is longer. *)
Theorem locate_returns_last_smallest (values : list PowerShellAstNode.t)
        (line column : Z) (found : PowerShellAstNode.t) :
  locate values line column = Some found ->
  exists before after,
    values = before ++ found :: after
    /\ containsPosition found line column = true
    /\ (forall node, In node before ->
                     containsPosition node line column = true ->
                     (PowerShellAstNode.textLength found
                      <= PowerShellAstNode.textLength node)%Z)
    /\ (forall node, In node after ->
                     containsPosition node line column = true ->
                     (PowerShellAstNode.textLength found
                      < PowerShellAstNode.textLength node)%Z).
Proof.
  intros H.
  pose proof (scan_last_smallest line column values [] None) as Hscan.
  cbn [app] in Hscan. fold (locate values line column) in Hscan.
  rewrite H in Hscan. apply Hscan. now intros node [].
Qed.

(** Two nodes of the same extent and length: the second is found. *)
Lemma locate_returns_last_smallest_witness :
  locate [spanning 1 1 1 9 8; spanning 1 1 1 9 8; outer] 1 3
  = Some (spanning 1 1 1 9 8)
  /\ exists before after,
      [spanning 1 1 1 9 8; spanning 1 1 1 9 8; outer]
      = before ++ spanning 1 1 1 9 8 :: after
      /\ forall node, In node after ->
                      containsPosition node 1 3 = true ->
                      (8 < PowerShellAstNode.textLength node)%Z.
Proof.
  assert (H : locate [spanning 1 1 1 9 8; spanning 1 1 1 9 8; outer] 1 3
              = Some (spanning 1 1 1 9 8)) by reflexivity.
  split; [exact H|].
  destruct (locate_returns_last_smallest _ _ _ _ H)
    as (before & after & Heq & _ & _ & Hafter).
  exists before, after. split; [exact Heq | exact Hafter].
Defined.

End LocatorTies.
